(** * core-js-101, 05-objects-tasks.js: the CSS selector builder and fromJSON

    A shallow embedding of [SelectorBuild], of the [cssSelectorBuilder]
    facade and of [fromJSON], over an explicit object store.

    JavaScript objects are mutable and shared by reference: every
    [SelectorBuild] instance lives in the store, its methods mutate it in
    place and return [this], and the arrays kept under the keys 'class',
    'attr' and 'pseudoClass' are store objects of their own, which [combine]
    copies by reference into [arrCombine].  A method is therefore a function
    from the store to an outcome (a returned value or a thrown exception)
    and the store it leaves behind; a thrown exception does not undo the
    writes made before it. *)

From Stdlib Require Import ZArith Lia.
From stdpp Require Import base list strings pretty.

Local Open Scope string_scope.
Local Open Scope list_scope.

(** ** The object store and the exception monad *)

Abbreviation loc := nat.

(** What a Map slot or an [arrCombine] entry holds: a primitive string or a
    reference to an array. *)
Inductive value :=
  | VString (s : string)
  | VArray (l : loc).

(** The fields the constructor of [SelectorBuild] sets.  [selectors] is a JS
    [Map]: its entries are kept in insertion order. *)
Record SelectorBuild := mkSelectorBuild {
  positions : list string;
  selectors : list (string * value);
  arrCombine : list value
}.

Inductive object :=
  | OArray (xs : list string)
  | OSelectorBuild (b : SelectorBuild).

(** Objects are never freed: the store only grows, and a fresh object gets
    the next free location. *)
Abbreviation heap := (list object).

Inductive exn :=
  | Error (message : string)
  | TypeError.

Inductive result (A : Type) :=
  | Return (a : A)
  | Throw (e : exn).
Arguments Return {A} a.
Arguments Throw {A} e.

(** A computation over a store of type [S]. *)
Definition state_exn (S A : Type) : Type := S -> result A * S.

Definition ret {S A} (a : A) : state_exn S A := fun h => (Return a, h).

Definition throw {S A} (e : exn) : state_exn S A := fun h => (Throw e, h).

Definition bind {S A B} (m : state_exn S A) (f : A -> state_exn S B)
  : state_exn S B :=
  fun h =>
    match m h with
    | (Return a, h') => f a h'
    | (Throw e, h') => (Throw e, h')
    end.

Notation "x <- c1 ;; c2" := (bind c1 (fun x => c2))
  (at level 100, c1 at next level, right associativity).
Notation "c1 ;;; c2" := (bind c1 (fun _ => c2))
  (at level 100, right associativity).

Abbreviation M := (state_exn heap).

Definition alloc (o : object) : M loc :=
  fun h => (Return (length h), h ++ [o]).

Definition read_selector (l : loc) : M SelectorBuild :=
  fun h =>
    match h !! l with
    | Some (OSelectorBuild b) => (Return b, h)
    | _ => (Throw TypeError, h)
    end.

Definition write_selector (l : loc) (b : SelectorBuild) : M unit :=
  fun h =>
    match h !! l with
    | Some (OSelectorBuild _) => (Return tt, <[l := OSelectorBuild b]> h)
    | _ => (Throw TypeError, h)
    end.

Definition read_array (l : loc) : M (list string) :=
  fun h =>
    match h !! l with
    | Some (OArray xs) => (Return xs, h)
    | _ => (Throw TypeError, h)
    end.

(** ** The Array and Map methods the source calls *)

Module JsArray.

(** [arr.includes(x)] *)
Definition includes (x : string) (arr : list string) : bool :=
  existsb (String.eqb x) arr.

(** [arr.indexOf(x)]: the first index of [x], or -1. *)
Fixpoint indexOf (x : string) (arr : list string) : Z :=
  match arr with
  | [] => (-1)%Z
  | y :: arr' =>
      if String.eqb y x then 0%Z
      else let r := indexOf x arr' in
           if (r <? 0)%Z then (-1)%Z else (r + 1)%Z
  end.

(** [arr.filter(p)] *)
Definition filter (p : string -> bool) (arr : list string) : list string :=
  List.filter p arr.

Fixpoint some_from (p : string -> nat -> bool) (i : nat) (arr : list string)
  : bool :=
  match arr with
  | [] => false
  | x :: arr' => p x i || some_from p (S i) arr'
  end.

(** [arr.some((x, i) => p)] *)
Definition some (p : string -> nat -> bool) (arr : list string) : bool :=
  some_from p 0 arr.

(** [arr.join('')] on an array of strings *)
Definition join (arr : list string) : string := String.concat "" arr.

(** [arr.push(x)] on the array at [l] *)
Definition push (l : loc) (x : string) : M unit :=
  fun h =>
    match h !! l with
    | Some (OArray xs) => (Return tt, <[l := OArray (xs ++ [x])]> h)
    | _ => (Throw TypeError, h)
    end.

(** One entry of [arr.flat()]: an array entry is replaced by its elements,
    a string stays. *)
Definition flat1 (v : value) : M (list string) :=
  match v with
  | VString s => ret [s]
  | VArray l => read_array l
  end.

(** [arr.flat()], one level deep *)
Fixpoint flat (arr : list value) : M (list string) :=
  match arr with
  | [] => ret []
  | v :: arr' =>
      xs <- flat1 v ;;
      ys <- flat arr' ;;
      ret (xs ++ ys)
  end.

End JsArray.

Module JsMap.

(** [map.has(key)] *)
Definition has (key : string) (m : list (string * value)) : bool :=
  existsb (fun kv => String.eqb kv.1 key) m.

(** [map.get(key)]; [None] is [undefined]. *)
Fixpoint get (key : string) (m : list (string * value)) : option value :=
  match m with
  | [] => None
  | (k, v) :: m' => if String.eqb k key then Some v else get key m'
  end.

(** [map.set(key, v)]: an existing key keeps its place, a new one goes to
    the end. *)
Fixpoint set (key : string) (v : value) (m : list (string * value))
  : list (string * value) :=
  match m with
  | [] => [(key, v)]
  | (k, w) :: m' =>
      if String.eqb k key then (k, v) :: m' else (k, w) :: set key v m'
  end.

(** [[...map.keys()]] *)
Definition keys (m : list (string * value)) : list string := map fst m.

(** [[...map.values()]] *)
Definition values (m : list (string * value)) : list value := map snd m.

End JsMap.

(** ** class SelectorBuild *)

Definition DuplicatePartError : exn :=
  Error "Element, id and pseudo-element should not occur more then one time inside the selector".

Definition OrderViolationError : exn :=
  Error "Selector parts should be arranged in the following order: element, id, class, attribute, pseudo-class, pseudo-element".

Module SelectorBuild.

(** [new SelectorBuild()] *)
Definition constructor : M loc :=
  alloc (OSelectorBuild
           {| positions := ["element"; "id"; "class"; "attr"; "pseudoClass";
                            "pseudoElement"];
              selectors := [];
              arrCombine := [] |}).

(** [this.selectors.set(key, v)] *)
Definition selectors_set (this : loc) (key : string) (v : value) : M unit :=
  b <- read_selector this ;;
  write_selector this
    {| positions := positions b;
       selectors := JsMap.set key v (selectors b);
       arrCombine := arrCombine b |}.

Definition isSelectorHas (this : loc) (selector : string) : M unit :=
  b <- read_selector this ;;
  if negb (JsMap.has selector (selectors b)) then
    arr <- alloc (OArray []) ;;
    selectors_set this selector (VArray arr)
  else ret tt.

Definition validUniq (this : loc) (selector : string) : M unit :=
  b <- read_selector this ;;
  if JsMap.has selector (selectors b) then throw DuplicatePartError
  else ret tt.

(** The test of [validPosition]: some key stands, in insertion order,
    after the place it has among the present keys in canonical order. *)
Definition correctPos (positions : list string) (selecKeys : list string)
  : bool :=
  let currentPos :=
    JsArray.filter (fun selec => JsArray.includes selec selecKeys)
      positions in
  JsArray.some
    (fun selec i => (Z.of_nat i >? JsArray.indexOf selec currentPos)%Z)
    selecKeys.

Definition validPosition (this : loc) : M unit :=
  b <- read_selector this ;;
  let selecKeys := JsMap.keys (selectors b) in
  if correctPos (positions b) selecKeys then throw OrderViolationError
  else ret tt.

(** [this.selectors.get(key).push(x)] *)
Definition selectors_get_push (this : loc) (key : string) (x : string)
  : M unit :=
  b <- read_selector this ;;
  match JsMap.get key (selectors b) with
  | Some (VArray arr) => JsArray.push arr x
  | _ => throw TypeError
  end.

Definition element (this : loc) (value : string) : M loc :=
  validUniq this "element" ;;;
  selectors_set this "element" (VString value) ;;;
  validPosition this ;;;
  ret this.

Definition id (this : loc) (value : string) : M loc :=
  validUniq this "id" ;;;
  selectors_set this "id" (VString ("#" +:+ value)) ;;;
  validPosition this ;;;
  ret this.

Definition class (this : loc) (value : string) : M loc :=
  isSelectorHas this "class" ;;;
  selectors_get_push this "class" ("." +:+ value) ;;;
  validPosition this ;;;
  ret this.

Definition attr (this : loc) (value : string) : M loc :=
  isSelectorHas this "attr" ;;;
  selectors_get_push this "attr" ("[" +:+ value +:+ "]") ;;;
  validPosition this ;;;
  ret this.

Definition pseudoClass (this : loc) (value : string) : M loc :=
  isSelectorHas this "pseudoClass" ;;;
  selectors_get_push this "pseudoClass" (":" +:+ value) ;;;
  validPosition this ;;;
  ret this.

Definition pseudoElement (this : loc) (value : string) : M loc :=
  validUniq this "pseudoElement" ;;;
  selectors_set this "pseudoElement" (VString ("::" +:+ value)) ;;;
  validPosition this ;;;
  ret this.

(** The arguments of [push] are read from [selector1] and [selector2]
    before [this.arrCombine] is written. *)
Definition combine (this selector1 : loc) (combinator : string)
    (selector2 : loc) : M loc :=
  b1 <- read_selector selector1 ;;
  b2 <- read_selector selector2 ;;
  b <- read_selector this ;;
  write_selector this
    {| positions := positions b;
       selectors := selectors b;
       arrCombine :=
         arrCombine b
           ++ JsMap.values (selectors b1)
           ++ [VString (" " +:+ combinator +:+ " ")]
           ++ JsMap.values (selectors b2)
           ++ arrCombine b2 |} ;;;
  ret this.

Definition stringify (this : loc) : M string :=
  b <- read_selector this ;;
  if (0 <? length (arrCombine b))%nat then
    xs <- JsArray.flat (arrCombine b) ;;
    ret (JsArray.join xs)
  else
    xs <- JsArray.flat (JsMap.values (selectors b)) ;;
    ret (JsArray.join xs).

End SelectorBuild.

(** ** The facade *)

Module cssSelectorBuilder.

Definition element (value : string) : M loc :=
  this <- SelectorBuild.constructor ;; SelectorBuild.element this value.

Definition id (value : string) : M loc :=
  this <- SelectorBuild.constructor ;; SelectorBuild.id this value.

Definition class (value : string) : M loc :=
  this <- SelectorBuild.constructor ;; SelectorBuild.class this value.

Definition attr (value : string) : M loc :=
  this <- SelectorBuild.constructor ;; SelectorBuild.attr this value.

Definition pseudoClass (value : string) : M loc :=
  this <- SelectorBuild.constructor ;; SelectorBuild.pseudoClass this value.

Definition pseudoElement (value : string) : M loc :=
  this <- SelectorBuild.constructor ;;
  SelectorBuild.pseudoElement this value.

Definition combine (selec1 : loc) (separ : string) (selec2 : loc) : M loc :=
  this <- SelectorBuild.constructor ;;
  SelectorBuild.combine this selec1 separ selec2.

End cssSelectorBuilder.

(** ** Call sequences

    A part-adding call names one of the six adders and carries its argument;
    [add] dispatches it to the method of the source. *)

Inductive part :=
  | Element (value : string)
  | Id (value : string)
  | Class (value : string)
  | Attr (value : string)
  | PseudoClass (value : string)
  | PseudoElement (value : string).

Definition add (this : loc) (p : part) : M loc :=
  match p with
  | Element v => SelectorBuild.element this v
  | Id v => SelectorBuild.id this v
  | Class v => SelectorBuild.class this v
  | Attr v => SelectorBuild.attr this v
  | PseudoClass v => SelectorBuild.pseudoClass this v
  | PseudoElement v => SelectorBuild.pseudoElement this v
  end.

(** A method chain [s.p1(..).p2(..)...]: the first exception ends it. *)
Fixpoint chain (this : loc) (ps : list part) : M loc :=
  match ps with
  | [] => ret this
  | p :: ps' => this' <- add this p ;; chain this' ps'
  end.

(** The same calls made one statement at a time on [this], each inside its
    own [try]/[catch]: the store after all of them. *)
Fixpoint attempts (this : loc) (ps : list part) (h : heap) : heap :=
  match ps with
  | [] => h
  | p :: ps' => attempts this ps' (add this p h).2
  end.

(** The Map key a call writes to, the fragment it stores, and whether the
    key holds an array. *)
Definition key (p : part) : string :=
  match p with
  | Element _ => "element"
  | Id _ => "id"
  | Class _ => "class"
  | Attr _ => "attr"
  | PseudoClass _ => "pseudoClass"
  | PseudoElement _ => "pseudoElement"
  end.

Definition fragment (p : part) : string :=
  match p with
  | Element v => v
  | Id v => "#" +:+ v
  | Class v => "." +:+ v
  | Attr v => "[" +:+ v +:+ "]"
  | PseudoClass v => ":" +:+ v
  | PseudoElement v => "::" +:+ v
  end.

Definition multi (p : part) : bool :=
  match p with
  | Class _ | Attr _ | PseudoClass _ => true
  | _ => false
  end.

(** The canonical order, as the constructor writes it, and the canonical
    index of a call's kind (0 for element up to 5 for pseudoElement). *)
Definition canonical : list string :=
  ["element"; "id"; "class"; "attr"; "pseudoClass"; "pseudoElement"].

Definition index (p : part) : nat :=
  match p with
  | Element _ => 0
  | Id _ => 1
  | Class _ => 2
  | Attr _ => 3
  | PseudoClass _ => 4
  | PseudoElement _ => 5
  end.

(** The highest canonical index among the calls made so far. *)
Definition max_index (ps : list part) : nat :=
  foldr (fun p m => Nat.max (index p) m) 0 ps.

Definition run {A} (m : M A) : result A := (m []).1.

(** The double quote, for the attribute values of the documentation. *)
Definition quote : string := String (Ascii.ascii_of_nat 34) EmptyString.

(** ** fromJSON

    [fromJSON(proto, json)] is
    [Object.assign(Object.create(proto), JSON.parse(json))].  The three
    built-ins are modelled after ECMAScript over a store of ordinary
    objects: an object has a [[Prototype]] slot and own properties, in
    creation order; a property is a data property or an accessor.

    The JSON text is given by its syntax tree: the grammar, and the
    SyntaxError of a string outside it, are not modelled.  Numbers are kept
    as integers; their arithmetic plays no part. *)

Module FromJSON.

#[warnings="-register-all"]
Inductive json :=
  | JNull
  | JBool (b : bool)
  | JNumber (n : Z)
  | JString (s : string)
  | JArray (elements : list json)
  | JObject (members : list (string * json)).

Inductive jsvalue :=
  | Undefined
  | Null
  | Boolean (b : bool)
  | Number (n : Z)
  | Str (s : string)
  | Object (l : loc).

(** A getter or setter: the built-in setter of
    [Object.prototype.__proto__], or a function of the program, named by
    a number. *)
Inductive function :=
  | ProtoSetter
  | Closure (code : nat).

Inductive property :=
  | Data (v : jsvalue) (writable enumerable : bool)
  | Accessor (getter setter : option function) (enumerable : bool).

Record jsobject := mkObject {
  prototype : option loc;
  properties : list (string * property)
}.

Abbreviation store := (list jsobject).

Abbreviation J := (state_exn store).

(** The intrinsics [%Object.prototype%] and [%Array.prototype%] and the
    store a program starts in. *)
Definition ObjectPrototype : loc := 0.
Definition ArrayPrototype : loc := 1.

Definition realm : store :=
  [ {| prototype := None;
       properties := [("__proto__",
                       Accessor None (Some ProtoSetter) false)] |};
    {| prototype := Some ObjectPrototype;
       properties := [("length", Data (Number 0) true false)] |} ].

Definition new_object (o : jsobject) : J loc :=
  fun s => (Return (length s), s ++ [o]).

Definition read_object (l : loc) : J jsobject :=
  fun s =>
    match s !! l with
    | Some o => (Return o, s)
    | None => (Throw TypeError, s)
    end.

Definition write_object (l : loc) (o : jsobject) : J unit :=
  fun s =>
    match s !! l with
    | Some _ => (Return tt, <[l := o]> s)
    | None => (Throw TypeError, s)
    end.

(** [[GetOwnProperty]] *)
Fixpoint get_own (P : string) (ps : list (string * property))
  : option property :=
  match ps with
  | [] => None
  | (k, p) :: ps' => if String.eqb k P then Some p else get_own P ps'
  end.

(** CreateDataProperty on a property list: an existing key keeps its
    place and takes the new value, a new key goes to the end. *)
Fixpoint create_data (P : string) (V : jsvalue)
    (ps : list (string * property)) : list (string * property) :=
  match ps with
  | [] => [(P, Data V true true)]
  | (k, p) :: ps' =>
      if String.eqb k P then (k, Data V true true) :: ps'
      else (k, p) :: create_data P V ps'
  end.

(** Assigning to a writable own data property keeps its flags. *)
Fixpoint set_value (P : string) (V : jsvalue)
    (ps : list (string * property)) : list (string * property) :=
  match ps with
  | [] => [(P, Data V true true)]
  | (k, p) :: ps' =>
      if String.eqb k P then
        match p with
        | Data _ w e => (k, Data V w e) :: ps'
        | Accessor _ _ _ => (k, p) :: ps'
        end
      else (k, p) :: set_value P V ps'
  end.

(** Where the lookup of [P] from an object ends along the prototype
    chain: at a property, at the [null] that ends the chain, or nowhere
    (a reference to no object, or a chain longer than [fuel]). *)
Inductive resolution :=
  | Found (p : property)
  | NotFound
  | Stuck.

Fixpoint resolve (fuel : nat) (s : store) (O : loc) (P : string)
  : resolution :=
  match fuel with
  | 0 => Stuck
  | S fuel' =>
      match s !! O with
      | None => Stuck
      | Some o =>
          match get_own P (properties o) with
          | Some p => Found p
          | None =>
              match prototype o with
              | None => NotFound
              | Some parent => resolve fuel' s parent P
              end
          end
      end
  end.

(** Whether [O] is on the prototype chain that starts at [l]. *)
Fixpoint on_chain (fuel : nat) (s : store) (O : loc) (l : loc) : bool :=
  match fuel with
  | 0 => true
  | S fuel' =>
      if Nat.eqb l O then true
      else match s !! l with
           | Some {| prototype := Some parent |} => on_chain fuel' s O parent
           | _ => false
           end
  end.

(** The setter of [Object.prototype.__proto__] called on the object [O]:
    a primitive argument is ignored, a prototype that would close a cycle
    is refused. *)
Definition proto_setter (O : loc) (V : jsvalue) : J unit :=
  match V with
  | Null =>
      o <- read_object O ;;
      write_object O {| prototype := None; properties := properties o |}
  | Object l =>
      o <- read_object O ;;
      fun s =>
        if on_chain (length s) s O l then (Throw TypeError, s)
        else write_object O
               {| prototype := Some l; properties := properties o |} s
  | _ => ret tt
  end.

Section Builtins.

(** The functions of the program, which the source of [fromJSON] does
    not contain: [call code this args]. *)
Variable call : nat -> jsvalue -> list jsvalue -> J jsvalue.

Definition call_setter (f : function) (O : loc) (V : jsvalue) : J unit :=
  match f with
  | ProtoSetter => proto_setter O V
  | Closure code => call code (Object O) [V] ;;; ret tt
  end.

(** [Set(O, P, V, true)] with [O] as the receiver (OrdinarySet): the
    property [P] resolves to decides. A read-only property or an
    accessor without setter makes the assignment throw. *)
Definition Set_ (O : loc) (P : string) (V : jsvalue) : J unit :=
  fun s =>
    match resolve (length s) s O P with
    | Stuck => (Throw TypeError, s)
    | Found (Accessor _ (Some f) _) => call_setter f O V s
    | Found (Accessor _ None _) => (Throw TypeError, s)
    | Found (Data _ false _) => (Throw TypeError, s)
    | Found (Data _ true _) | NotFound =>
        (o <- read_object O ;;
         write_object O
           {| prototype := prototype o;
              properties := set_value P V (properties o) |}) s
    end.

(** [Get(from, P)] for an own property [p] of [from]. *)
Definition Get_own (from : loc) (p : property) : J jsvalue :=
  match p with
  | Data v _ _ => ret v
  | Accessor (Some (Closure code)) _ _ => call code (Object from) []
  | Accessor _ _ _ => ret Undefined
  end.

Definition enumerable (p : property) : bool :=
  match p with
  | Data _ _ e => e
  | Accessor _ _ e => e
  end.

(** The loop of [Object.assign] over the own properties of [from], read
    when the loop starts: the source of [fromJSON] is a new object that no
    setter can reach. *)
Fixpoint assign_properties (to from : loc)
    (ps : list (string * property)) : J unit :=
  match ps with
  | [] => ret tt
  | (k, p) :: ps' =>
      (if enumerable p then
         v <- Get_own from p ;; Set_ to k v
       else ret tt) ;;;
      assign_properties to from ps'
  end.

(** The index properties of a string source. *)
Fixpoint assign_characters (to : loc) (i : nat) (cs : string) : J unit :=
  match cs with
  | EmptyString => ret tt
  | String c cs' =>
      Set_ to (pretty i) (Str (String c EmptyString)) ;;;
      assign_characters to (S i) cs'
  end.

(** [Object.assign(target, source)] *)
Definition Object_assign (target source : jsvalue) : J jsvalue :=
  match target with
  | Object to =>
      match source with
      | Object from =>
          o <- read_object from ;;
          assign_properties to from (properties o) ;;;
          ret target
      | Str cs => assign_characters to 0 cs ;;; ret target
      | _ => ret target
      end
  | _ => throw TypeError
  end.

(** [Object.create(proto)] *)
Definition Object_create (proto : jsvalue) : J jsvalue :=
  match proto with
  | Object l =>
      r <- new_object {| prototype := Some l; properties := [] |} ;;
      ret (Object r)
  | Null =>
      r <- new_object {| prototype := None; properties := [] |} ;;
      ret (Object r)
  | _ => throw TypeError
  end.

(** The elements of a JSON array, parsed in order into the index
    properties of the array. *)
Fixpoint parse_elements (parse : json -> J jsvalue) (i : nat)
    (js : list json) : J (list (string * property)) :=
  match js with
  | [] => ret []
  | j :: js' =>
      v <- parse j ;;
      ps <- parse_elements parse (S i) js' ;;
      ret ((pretty i, Data v true true) :: ps)
  end.

(** The members of a JSON object, parsed in order into own data
    properties; of two members with one name the later value wins. *)
Fixpoint parse_members (parse : json -> J jsvalue)
    (ms : list (string * json)) (acc : list (string * property))
  : J (list (string * property)) :=
  match ms with
  | [] => ret acc
  | (k, j) :: ms' =>
      v <- parse j ;;
      parse_members parse ms' (create_data k v acc)
  end.

(** [JSON.parse(json)]: every object of the text is a new ordinary
    object under [%Object.prototype%] whose members are own data
    properties, '__proto__' included. *)
Fixpoint JSON_parse (j : json) : J jsvalue :=
  match j with
  | JNull => ret Null
  | JBool b => ret (Boolean b)
  | JNumber n => ret (Number n)
  | JString s => ret (Str s)
  | JArray elements =>
      ps <- parse_elements JSON_parse 0 elements ;;
      r <- new_object
             {| prototype := Some ArrayPrototype;
                properties :=
                  ps ++ [("length",
                          Data (Number (Z.of_nat (length elements)))
                            true false)] |} ;;
      ret (Object r)
  | JObject members =>
      ps <- parse_members JSON_parse members [] ;;
      r <- new_object
             {| prototype := Some ObjectPrototype; properties := ps |} ;;
      ret (Object r)
  end.

Definition fromJSON (proto : jsvalue) (json : json) : J jsvalue :=
  target <- Object_create proto ;;
  source <- JSON_parse json ;;
  Object_assign target source.

End Builtins.

End FromJSON.

(** *** Induction on JSON syntax trees *)

Section JsonInduction.

Variable P : FromJSON.json -> Prop.
Hypothesis P_null : P FromJSON.JNull.
Hypothesis P_bool : forall b, P (FromJSON.JBool b).
Hypothesis P_number : forall n, P (FromJSON.JNumber n).
Hypothesis P_string : forall s, P (FromJSON.JString s).
Hypothesis P_array :
  forall elements, Forall P elements -> P (FromJSON.JArray elements).
Hypothesis P_object :
  forall members,
    Forall (fun m => P m.2) members -> P (FromJSON.JObject members).

Fixpoint json_induction (j : FromJSON.json) : P j :=
  match j with
  | FromJSON.JNull => P_null
  | FromJSON.JBool b => P_bool b
  | FromJSON.JNumber n => P_number n
  | FromJSON.JString s => P_string s
  | FromJSON.JArray elements =>
      P_array elements
        ((fix all (js : list FromJSON.json) : Forall P js :=
            match js with
            | [] => @List.Forall_nil _ _
            | j' :: js' =>
                @List.Forall_cons _ _ j' js' (json_induction j') (all js')
            end) elements)
  | FromJSON.JObject members =>
      P_object members
        ((fix all (ms : list (string * FromJSON.json))
            : Forall (fun m => P m.2) ms :=
            match ms with
            | [] => @List.Forall_nil _ _
            | m :: ms' =>
                @List.Forall_cons _ (fun m => P m.2) m ms' (json_induction m.2)
                  (all ms')
            end) members)
  end.

End JsonInduction.

(** *** What the statements about [fromJSON] speak of *)

(** A program without functions of its own: nothing to call. *)
Definition no_functions
  : nat -> FromJSON.jsvalue -> list FromJSON.jsvalue
    -> FromJSON.J FromJSON.jsvalue :=
  fun _ _ _ => throw TypeError.

(** An assignment to [P] defines an own data property on the receiver
    when [P] resolves to nothing or to a writable data property. *)
Definition assignable (r : FromJSON.resolution) : Prop :=
  match r with
  | FromJSON.NotFound => True
  | FromJSON.Found (FromJSON.Data _ true _) => True
  | _ => False
  end.

(** The realm with a function object and [Circle.prototype], whose method
    [getArea] is that function. *)
Definition circle_store : FromJSON.store :=
  FromJSON.realm
    ++ [ {| FromJSON.prototype := Some FromJSON.ObjectPrototype;
            FromJSON.properties := [] |};
         {| FromJSON.prototype := Some FromJSON.ObjectPrototype;
            FromJSON.properties :=
              [("getArea",
                FromJSON.Data (FromJSON.Object 2) true false)] |} ].

Definition Circle_prototype : loc := 3.

(** Own enumerable writable data properties under distinct keys: what
    [JSON.parse] gives an object. *)
Definition plain (ps : list (string * FromJSON.property)) : Prop :=
  Forall (fun kp => exists v, kp.2 = FromJSON.Data v true true) ps
  /\ NoDup ps.*1.

(** [JSON.parse] returns on the text [j], and only adds objects to the
    store. *)
Definition parses (j : FromJSON.json) : Prop :=
  forall s, exists v s',
    FromJSON.JSON_parse j s = (Return v, s') /\ s `prefix_of` s'.


(** ** What a call leaves behind, in closed form

    The adders are short straight-line programs; on a store where [this] is
    a [SelectorBuild] their outcome is one of the following expressions,
    which the proofs below work with. *)

Definition with_selectors (b : SelectorBuild) (sel : list (string * value))
  : SelectorBuild :=
  {| positions := positions b; selectors := sel; arrCombine := arrCombine b |}.

(** The outcome of [validPosition] on the instance [b]. *)
Definition position_outcome (this : loc) (b : SelectorBuild) : result loc :=
  if SelectorBuild.correctPos (positions b) (JsMap.keys (selectors b))
  then Throw OrderViolationError else Return this.

Definition single_outcome (this : loc) (b : SelectorBuild) (k : string)
    (x : string) (h : heap) : result loc * heap :=
  if JsMap.has k (selectors b) then (Throw DuplicatePartError, h)
  else
    let b' := with_selectors b (JsMap.set k (VString x) (selectors b)) in
    (position_outcome this b', <[this := OSelectorBuild b']> h).

Definition multi_outcome (this : loc) (b : SelectorBuild) (k : string)
    (x : string) (h : heap) : result loc * heap :=
  if JsMap.has k (selectors b) then
    match JsMap.get k (selectors b) with
    | Some (VArray arr) =>
        match h !! arr with
        | Some (OArray xs) =>
            (position_outcome this b, <[arr := OArray (xs ++ [x])]> h)
        | _ => (Throw TypeError, h)
        end
    | _ => (Throw TypeError, h)
    end
  else
    let arr := length h in
    let b' := with_selectors b (JsMap.set k (VArray arr) (selectors b)) in
    (position_outcome this b',
     <[arr := OArray [x]]> (<[this := OSelectorBuild b']> (h ++ [OArray []]))).

(** ** Selectors built by accepted calls

    The calls [qs] made so far on an instance determine its Map: the keys
    present are the kinds of [qs] in canonical order, and under each key
    lie the fragments of that kind, in the order of the calls. *)

Definition present (k : string) (qs : list part) : bool :=
  existsb (fun q => String.eqb (key q) k) qs.

Definition present_keys (qs : list part) : list string :=
  List.filter (fun k => present k qs) canonical.

Definition frags (k : string) (qs : list part) : list string :=
  map fragment (List.filter (fun q => String.eqb (key q) k) qs).

(** What the documentation asks of [stringify]: the fragments of each kind
    in canonical kind order, each kind in insertion order, nothing in
    between. *)
Definition canonical_render (ps : list part) : string :=
  String.concat "" (flat_map (fun k => frags k ps) canonical).

(** How a call [p] fares after the accepted calls [qs]. *)
Inductive verdict :=
  | Accepted
  | Duplicate
  | Misplaced.

Definition verdict_of (qs : list part) (p : part) : verdict :=
  if present (key p) qs then (if multi p then Accepted else Duplicate)
  else if (index p <? max_index qs)%nat then Misplaced else Accepted.

Fixpoint all_accepted (qs ps : list part) : bool :=
  match ps with
  | [] => true
  | p :: ps' =>
      match verdict_of qs p with
      | Accepted => all_accepted (qs ++ [p]) ps'
      | _ => false
      end
  end.

(** Canonical indices never fall along the calls. *)
Fixpoint non_decreasing (ps : list part) : bool :=
  match ps with
  | [] => true
  | p :: ps' =>
      forallb (fun q => (index p <=? index q)%nat) ps' && non_decreasing ps'
  end.

(** No single-valued kind is given twice. *)
Fixpoint singles_once (ps : list part) : bool :=
  match ps with
  | [] => true
  | p :: ps' => (multi p || negb (present (key p) ps')) && singles_once ps'
  end.

Definition multi_key (k : string) : bool :=
  JsArray.includes k ["class"; "attr"; "pseudoClass"].

(** The slot [v] under key [k] holds the fragments of kind [k] of [qs]. *)
Definition slot_ok (h : heap) (qs : list part) (k : string) (v : value)
  : Prop :=
  match v with
  | VString s => frags k qs = [s] /\ multi_key k = false
  | VArray l => h !! l = Some (OArray (frags k qs)) /\ multi_key k = true
  end.

(** What the constructor builds. *)
Definition empty_instance : SelectorBuild :=
  {| positions := canonical; selectors := []; arrCombine := [] |}.

(** The instance [b] at [this] is what the accepted calls [qs] build. *)
Definition built (h : heap) (this : loc) (b : SelectorBuild)
    (qs : list part) : Prop :=
  h !! this = Some (OSelectorBuild b)
  /\ positions b = canonical
  /\ JsMap.keys (selectors b) = present_keys qs
  /\ (forall k v, (k, v) ∈ selectors b -> slot_ok h qs k v)
  /\ (forall k1 k2 l, (k1, VArray l) ∈ selectors b ->
                      (k2, VArray l) ∈ selectors b -> k1 = k2).

(** The arrays the chain of [b] refers to exist and are none of the arrays
    of its Map. *)
Definition chain_apart (h : heap) (b : SelectorBuild) : Prop :=
  forall l, VArray l ∈ arrCombine b ->
            (exists xs, h !! l = Some (OArray xs))
            /\ forall k, (k, VArray l) ∉ selectors b.

(** The fragment of the call [p] lies under its key in the instance at
    [this]: as the string of a single-valued kind, or at the end of the
    array of a multi-valued one. *)
Definition stored (h : heap) (this : loc) (p : part) : Prop :=
  exists b,
    h !! this = Some (OSelectorBuild b)
    /\ match JsMap.get (key p) (selectors b) with
       | Some (VString s) => s = fragment p
       | Some (VArray arr) =>
           exists xs, h !! arr = Some (OArray (xs ++ [fragment p]))
       | None => False
       end.

(** ** Keys of a Map, in general

    Whatever calls were made, thrown or not, the keys of [selectors] are
    distinct and among the six of the constructor. *)

Definition well_keyed (ks : list string) : Prop :=
  NoDup ks /\ forall k, k ∈ ks -> k ∈ canonical.

(** The keys stand in strictly increasing canonical index. *)
Fixpoint increasing (ks : list string) : bool :=
  match ks with
  | [] => true
  | k :: ks' =>
      forallb (fun k' => (JsArray.indexOf k canonical
                          <? JsArray.indexOf k' canonical)%Z) ks'
      && increasing ks'
  end.

(** [P] holds of [ks] and of every list that extends [ks] by up to [fuel]
    further distinct keys. *)
Fixpoint explore (P : list string -> bool) (fuel : nat) (ks : list string)
  : bool :=
  P ks
  && match fuel with
     | 0 => true
     | S fuel' =>
         forallb (fun k => if JsArray.includes k ks then true
                           else explore P fuel' (ks ++ [k]))
           canonical
     end.

(** The order test fails on [ks] and goes on failing on [ks] with any
    further key. *)
Definition stays_misplaced (ks : list string) : bool :=
  if SelectorBuild.correctPos canonical ks then
    forallb (fun k => if JsArray.includes k ks then true
                      else SelectorBuild.correctPos canonical (ks ++ [k]))
      canonical
  else true.

(** The order test fails exactly on the lists that are not increasing. *)
Definition fails_unless_increasing (ks : list string) : bool :=
  Bool.eqb (SelectorBuild.correctPos canonical ks) (negb (increasing ks)).

(** The instance at [this] has well-formed keys on which the order test
    fails. *)
Definition misplaced (h : heap) (this : loc) : Prop :=
  exists b,
    h !! this = Some (OSelectorBuild b)
    /\ positions b = canonical
    /\ well_keyed (JsMap.keys (selectors b))
    /\ SelectorBuild.correctPos canonical (JsMap.keys (selectors b)) = true.

(** The facade's adder for a call. *)
Definition facade (p : part) : M loc :=
  match p with
  | Element v => cssSelectorBuilder.element v
  | Id v => cssSelectorBuilder.id v
  | Class v => cssSelectorBuilder.class v
  | Attr v => cssSelectorBuilder.attr v
  | PseudoClass v => cssSelectorBuilder.pseudoClass v
  | PseudoElement v => cssSelectorBuilder.pseudoElement v
  end.

(** An assignment to [P] throws when [P] resolves to a read-only data
    property or to an accessor without setter. *)
Definition refused (r : FromJSON.resolution) : Prop :=
  match r with
  | FromJSON.Found (FromJSON.Data _ false _) => True
  | FromJSON.Found (FromJSON.Accessor _ None _) => True
  | _ => False
  end.

(** * Theorems *)

(** ** The examples of the source's documentation *)

Example doc_example_1 :
  run (s <- cssSelectorBuilder.id "main" ;;
       s <- SelectorBuild.class s "container" ;;
       s <- SelectorBuild.class s "editable" ;;
       SelectorBuild.stringify s)
  = Return "#main.container.editable".
Proof. reflexivity. Qed.

Example doc_example_2 :
  run (s <- cssSelectorBuilder.element "a" ;;
       s <- SelectorBuild.attr s ("href$=" +:+ quote +:+ ".png" +:+ quote) ;;
       s <- SelectorBuild.pseudoClass s "focus" ;;
       SelectorBuild.stringify s)
  = Return ("a[href$=" +:+ quote +:+ ".png" +:+ quote +:+ "]:focus").
Proof. reflexivity. Qed.

Example doc_example_3 :
  run (a <- cssSelectorBuilder.element "div" ;;
       a <- SelectorBuild.id a "main" ;;
       a <- SelectorBuild.class a "container" ;;
       a <- SelectorBuild.class a "draggable" ;;
       b <- cssSelectorBuilder.element "table" ;;
       b <- SelectorBuild.id b "data" ;;
       c <- cssSelectorBuilder.element "tr" ;;
       c <- SelectorBuild.pseudoClass c "nth-of-type(even)" ;;
       d <- cssSelectorBuilder.element "td" ;;
       d <- SelectorBuild.pseudoClass d "nth-of-type(even)" ;;
       cd <- cssSelectorBuilder.combine c " " d ;;
       bcd <- cssSelectorBuilder.combine b "~" cd ;;
       abcd <- cssSelectorBuilder.combine a "+" bcd ;;
       SelectorBuild.stringify abcd)
  = Return "div#main.container.draggable + table#data ~ tr:nth-of-type(even)   td:nth-of-type(even)".
Proof. reflexivity. Qed.

(** [index] is the place of the call's key in the list the constructor
    writes to [positions]. *)
Lemma index_canonical p :
  JsArray.indexOf (key p) canonical = Z.of_nat (index p).
Proof. by destruct p. Qed.

(** ** The store *)

Lemma read_selector_at h l b :
  h !! l = Some (OSelectorBuild b) -> read_selector l h = (Return b, h).
Proof. intros H. unfold read_selector. by rewrite H. Qed.

Lemma write_selector_at h l b b' :
  h !! l = Some (OSelectorBuild b) ->
  write_selector l b' h = (Return tt, <[l := OSelectorBuild b']> h).
Proof. intros H. unfold write_selector. by rewrite H. Qed.

Lemma lookup_written {A} (h : list A) l o o' :
  h !! l = Some o -> <[l := o']> h !! l = Some o'.
Proof.
  intros H. apply list_lookup_insert_eq. by eapply lookup_lt_Some.
Qed.

Lemma lookup_alloc_old {A} (h : list A) l o o' :
  h !! l = Some o -> (h ++ [o']) !! l = Some o.
Proof. intros H. rewrite lookup_app_l; [done|]. by eapply lookup_lt_Some. Qed.

Lemma lookup_alloc_new {A} (h : list A) o : (h ++ [o]) !! length h = Some o.
Proof. rewrite lookup_app_r; [|lia]. by rewrite Nat.sub_diag. Qed.

Lemma lookup_old_ne_length {A} (h : list A) l o : h !! l = Some o -> l <> length h.
Proof. intros H%lookup_lt_Some. lia. Qed.

Lemma length_ne_lookup_old {A} (h : list A) l o : h !! l = Some o -> length h <> l.
Proof. intros H%lookup_lt_Some. lia. Qed.

(** ** The Map *)

Lemma has_keys k m : JsMap.has k m = JsArray.includes k (JsMap.keys m).
Proof.
  unfold JsMap.has, JsArray.includes, JsMap.keys.
  induction m as [|[k' v] m IH]; simpl; [done|].
  by rewrite IH, (String.eqb_sym k k').
Qed.

Lemma set_new k v m : JsMap.has k m = false -> JsMap.set k v m = m ++ [(k, v)].
Proof.
  unfold JsMap.has. induction m as [|[k' w] m IH]; simpl; [done|].
  intros [H1 H2]%orb_false_iff. rewrite H1. by rewrite IH.
Qed.

Lemma keys_set_old k v m :
  JsMap.has k m = true -> JsMap.keys (JsMap.set k v m) = JsMap.keys m.
Proof.
  unfold JsMap.has, JsMap.keys. induction m as [|[k' w] m IH]; simpl; [done|].
  destruct (String.eqb k' k) eqn:E; simpl; [done|].
  intros H. by rewrite IH.
Qed.

Lemma has_set k k' v m :
  JsMap.has k' (JsMap.set k v m) = JsMap.has k' m || String.eqb k k'.
Proof.
  unfold JsMap.has. induction m as [|[k0 w] m IH]; simpl.
  - by rewrite orb_false_r.
  - destruct (String.eqb k0 k) eqn:E; simpl.
    + apply String.eqb_eq in E. subst k0.
      destruct (String.eqb k k'); simpl; [done|].
      by rewrite orb_false_r.
    + rewrite IH. by rewrite orb_assoc.
Qed.

Lemma has_set_same k v m : JsMap.has k (JsMap.set k v m) = true.
Proof. rewrite has_set, String.eqb_refl. apply orb_true_r. Qed.

Lemma has_set_mono k k' v m :
  JsMap.has k' m = true -> JsMap.has k' (JsMap.set k v m) = true.
Proof. intros H. by rewrite has_set, H. Qed.

Lemma get_set_same k v m : JsMap.get k (JsMap.set k v m) = Some v.
Proof.
  induction m as [|[k0 w] m IH]; simpl.
  - by rewrite String.eqb_refl.
  - destruct (String.eqb k0 k) eqn:E; simpl; by rewrite E.
Qed.

(** ** The adders in closed form *)

Lemma validUniq_at h this b k :
  h !! this = Some (OSelectorBuild b) ->
  SelectorBuild.validUniq this k h
  = (if JsMap.has k (selectors b) then Throw DuplicatePartError else Return tt,
     h).
Proof.
  intros H. unfold SelectorBuild.validUniq, bind.
  rewrite (read_selector_at _ _ _ H). by destruct (JsMap.has _ _).
Qed.

Lemma selectors_set_at h this b k v :
  h !! this = Some (OSelectorBuild b) ->
  SelectorBuild.selectors_set this k v h
  = (Return tt,
     <[this := OSelectorBuild (with_selectors b (JsMap.set k v (selectors b)))]>
       h).
Proof.
  intros H. unfold SelectorBuild.selectors_set, bind.
  rewrite (read_selector_at _ _ _ H).
  by rewrite (write_selector_at _ _ _ _ H).
Qed.

Lemma validPosition_at h this b :
  h !! this = Some (OSelectorBuild b) ->
  SelectorBuild.validPosition this h
  = (match position_outcome this b with
     | Return _ => Return tt
     | Throw e => Throw e
     end, h).
Proof.
  intros H. unfold SelectorBuild.validPosition, bind, position_outcome.
  rewrite (read_selector_at _ _ _ H).
  by destruct (SelectorBuild.correctPos _ _).
Qed.

Lemma single_at h this b k x :
  h !! this = Some (OSelectorBuild b) ->
  (SelectorBuild.validUniq this k ;;;
   SelectorBuild.selectors_set this k (VString x) ;;;
   SelectorBuild.validPosition this ;;;
   ret this) h
  = single_outcome this b k x h.
Proof.
  intros H. unfold bind at 1. rewrite (validUniq_at _ _ _ _ H).
  unfold single_outcome. destruct (JsMap.has k (selectors b)); [done|].
  unfold bind at 1. rewrite (selectors_set_at _ _ _ _ _ H).
  unfold bind. rewrite (validPosition_at _ _ _ (lookup_written _ _ _ _ H)).
  unfold position_outcome. by destruct (SelectorBuild.correctPos _ _).
Qed.

Lemma multi_at h this b k x :
  h !! this = Some (OSelectorBuild b) ->
  (SelectorBuild.isSelectorHas this k ;;;
   SelectorBuild.selectors_get_push this k x ;;;
   SelectorBuild.validPosition this ;;;
   ret this) h
  = multi_outcome this b k x h.
Proof.
  intros H. unfold multi_outcome.
  unfold bind at 1, SelectorBuild.isSelectorHas, bind at 1.
  rewrite (read_selector_at _ _ _ H).
  destruct (JsMap.has k (selectors b)) eqn:Hk; simpl.
  - unfold bind at 1, SelectorBuild.selectors_get_push, bind at 1.
    rewrite (read_selector_at _ _ _ H).
    destruct (JsMap.get k (selectors b)) as [[s|arr]|]; try done.
    unfold JsArray.push.
    destruct (h !! arr) as [[xs|b0]|] eqn:Harr; try done.
    unfold bind.
    assert (arr <> this) as Hne by (intros ->; congruence).
    assert (<[arr := OArray (xs ++ [x])]> h !! this = Some (OSelectorBuild b))
      as H' by (by rewrite list_lookup_insert_ne).
    rewrite (validPosition_at _ _ _ H').
    unfold position_outcome. by destruct (SelectorBuild.correctPos _ _).
  - unfold bind at 1, alloc.
    pose proof (lookup_alloc_old _ _ _ (OArray []) H) as H1.
    rewrite (selectors_set_at _ _ _ _ _ H1).
    set (b' := with_selectors b _).
    pose proof (lookup_written _ _ _ (OSelectorBuild b') H1) as H2.
    unfold bind at 1, SelectorBuild.selectors_get_push, bind at 1.
    rewrite (read_selector_at _ _ _ H2).
    subst b'. simpl. rewrite get_set_same.
    pose proof (lookup_old_ne_length _ _ _ H) as Hne.
    unfold JsArray.push.
    rewrite list_lookup_insert_ne by done.
    rewrite lookup_alloc_new. simpl.
    unfold bind.
    erewrite validPosition_at; last first.
    { rewrite list_lookup_insert_ne by lia. exact H2. }
    unfold position_outcome. by destruct (SelectorBuild.correctPos _ _).
Qed.

Lemma add_at h this b p :
  h !! this = Some (OSelectorBuild b) ->
  add this p h
  = if multi p then multi_outcome this b (key p) (fragment p) h
    else single_outcome this b (key p) (fragment p) h.
Proof.
  intros H. destruct p; simpl;
    first [ by apply single_at | by apply multi_at ].
Qed.

(** A call on something that is no [SelectorBuild] ends in a TypeError. *)
Lemma add_elsewhere h this p :
  (forall b, h !! this <> Some (OSelectorBuild b)) ->
  add this p h = (Throw TypeError, h).
Proof.
  intros H.
  assert (read_selector this h = (Throw TypeError, h)) as Hr.
  { unfold read_selector. destruct (h !! this) as [[xs|b]|] eqn:E; try done.
    by destruct (H b). }
  destruct p; simpl;
    unfold SelectorBuild.element, SelectorBuild.id, SelectorBuild.class,
      SelectorBuild.attr, SelectorBuild.pseudoClass,
      SelectorBuild.pseudoElement, SelectorBuild.validUniq,
      SelectorBuild.isSelectorHas, bind;
    by rewrite Hr.
Qed.

Lemma errors_differ : OrderViolationError <> DuplicatePartError.
Proof. discriminate. Qed.

Lemma position_outcome_not_duplicate this b :
  position_outcome this b <> Throw DuplicatePartError.
Proof.
  unfold position_outcome. destruct (SelectorBuild.correctPos _ _); [|done].
  intros [=].
Qed.

(** The instance a call leaves at [this]: the one it found, or that one
    with the call's key set. *)
Lemma add_instance h this b p :
  h !! this = Some (OSelectorBuild b) ->
  (add this p h).2 !! this = Some (OSelectorBuild b)
  \/ exists v,
      (add this p h).2 !! this
      = Some (OSelectorBuild
                (with_selectors b (JsMap.set (key p) v (selectors b)))).
Proof.
  intros H. rewrite (add_at _ _ _ _ H).
  destruct (multi p); unfold single_outcome, multi_outcome.
  - destruct (JsMap.has _ _).
    + left. destruct (JsMap.get _ _) as [[s|arr]|]; try done.
      destruct (h !! arr) as [[xs|b0]|] eqn:Harr; try done. simpl.
      rewrite list_lookup_insert_ne; [done|]. intros ->. congruence.
    + right. eexists. simpl.
      rewrite list_lookup_insert_ne by (by eapply length_ne_lookup_old).
      eapply lookup_written, lookup_alloc_old, H.
  - destruct (JsMap.has _ _); [by left|].
    right. eexists. simpl. by eapply lookup_written.
Qed.

Lemma add_keeps_key h this b p k :
  h !! this = Some (OSelectorBuild b) ->
  JsMap.has k (selectors b) = true ->
  exists b', (add this p h).2 !! this = Some (OSelectorBuild b')
             /\ JsMap.has k (selectors b') = true.
Proof.
  intros H Hk. destruct (add_instance _ _ _ p H) as [H'|[v H']].
  - by exists b.
  - eexists. split; [exact H'|]. simpl. by apply has_set_mono.
Qed.

Lemma attempts_keep_key ps h this b k :
  h !! this = Some (OSelectorBuild b) ->
  JsMap.has k (selectors b) = true ->
  exists b', attempts this ps h !! this = Some (OSelectorBuild b')
             /\ JsMap.has k (selectors b') = true.
Proof.
  revert h b. induction ps as [|p ps IH]; intros h b H Hk; simpl.
  - by exists b.
  - destruct (add_keeps_key _ _ _ p _ H Hk) as (b' & H' & Hk').
    by eapply IH.
Qed.

(** After a call of a single-valued adder, whatever its outcome, the key is
    in the Map. *)
Lemma single_sets_key h this b p :
  multi p = false ->
  h !! this = Some (OSelectorBuild b) ->
  exists b', (add this p h).2 !! this = Some (OSelectorBuild b')
             /\ JsMap.has (key p) (selectors b') = true.
Proof.
  intros Hp H. rewrite (add_at _ _ _ _ H), Hp. unfold single_outcome.
  destruct (JsMap.has _ _) eqn:Hk; simpl.
  - by exists b.
  - eexists. split; [by eapply lookup_written|]. simpl. apply has_set_same.
Qed.

Lemma single_again h this b p ps q :
  multi p = false -> key q = key p ->
  h !! this = Some (OSelectorBuild b) ->
  let h' := attempts this ps (add this p h).2 in
  add this q h' = (Throw DuplicatePartError, h').
Proof.
  intros Hp Hq H h'.
  destruct (single_sets_key _ _ _ _ Hp H) as (b1 & H1 & Hk1).
  destruct (attempts_keep_key ps _ _ _ _ H1 Hk1) as (b2 & H2 & Hk2).
  fold h' in H2. rewrite (add_at _ _ _ _ H2).
  assert (multi q = false) as -> by (by destruct p, q).
  unfold single_outcome. by rewrite Hq, Hk2.
Qed.

Lemma multi_never_duplicate h this p :
  multi p = true -> (add this p h).1 <> Throw DuplicatePartError.
Proof.
  intros Hp.
  destruct (h !! this) as [[xs|b]|] eqn:H.
  - by rewrite add_elsewhere by (intros b; congruence).
  - rewrite (add_at _ _ _ _ H), Hp. unfold multi_outcome.
    destruct (JsMap.has _ _).
    + destruct (JsMap.get _ _) as [[s|arr]|]; try done.
      destruct (h !! arr) as [[xs|b0]|]; try done.
      apply position_outcome_not_duplicate.
    + apply position_outcome_not_duplicate.
  - by rewrite add_elsewhere by (intros b; congruence).
Qed.

(** C6. On every selector, a second call of [id] throws the duplicate
    error, whatever the first call's outcome and whatever calls [ps] were
    attempted in between; the same holds for [element] and for
    [pseudoElement].  The adders of the multi-valued kinds ([class], [attr],
    [pseudoClass]) never throw the duplicate error, in any store. *)
Theorem C6_duplicate_single_valued_parts h this b v1 ps v2 :
  h !! this = Some (OSelectorBuild b) ->
  (let h' := attempts this ps (SelectorBuild.id this v1 h).2 in
   SelectorBuild.id this v2 h' = (Throw DuplicatePartError, h'))
  /\ (let h' := attempts this ps (SelectorBuild.element this v1 h).2 in
      SelectorBuild.element this v2 h' = (Throw DuplicatePartError, h'))
  /\ (let h' := attempts this ps (SelectorBuild.pseudoElement this v1 h).2 in
      SelectorBuild.pseudoElement this v2 h' = (Throw DuplicatePartError, h'))
  /\ (forall h0 s v,
        (SelectorBuild.class s v h0).1 <> Throw DuplicatePartError
        /\ (SelectorBuild.attr s v h0).1 <> Throw DuplicatePartError
        /\ (SelectorBuild.pseudoClass s v h0).1 <> Throw DuplicatePartError).
Proof.
  intros H. repeat split.
  - exact (single_again h this b (Id v1) ps (Id v2) eq_refl eq_refl H).
  - exact (single_again h this b (Element v1) ps (Element v2)
             eq_refl eq_refl H).
  - exact (single_again h this b (PseudoElement v1) ps (PseudoElement v2)
             eq_refl eq_refl H).
  - exact (multi_never_duplicate h0 s (Class v) eq_refl).
  - exact (multi_never_duplicate h0 s (Attr v) eq_refl).
  - exact (multi_never_duplicate h0 s (PseudoClass v) eq_refl).
Qed.

(** ** The order test on keys in canonical order *)

Lemma includes_filter k f l :
  JsArray.includes k (List.filter f l) = f k && JsArray.includes k l.
Proof.
  unfold JsArray.includes. induction l as [|a l IH]; simpl.
  - by rewrite andb_false_r.
  - destruct (String.eqb k a) eqn:E.
    + apply String.eqb_eq in E. subst a.
      destruct (f k); simpl; [by rewrite String.eqb_refl|done].
    + destruct (f a); simpl; [by rewrite E|done].
Qed.

Lemma key_canonical p : JsArray.includes (key p) canonical = true.
Proof. by destruct p. Qed.

Lemma includes_present_keys p qs :
  JsArray.includes (key p) (present_keys qs) = present (key p) qs.
Proof.
  unfold present_keys. rewrite includes_filter, key_canonical.
  apply andb_true_r.
Qed.

Lemma present_snoc k qs p :
  present k (qs ++ [p]) = present k qs || String.eqb (key p) k.
Proof. unfold present. rewrite existsb_app. simpl. by rewrite orb_false_r. Qed.

(** The highest index present, read off the six kinds. *)
Lemma max_index_present qs :
  max_index qs
  = if present "pseudoElement" qs then 5
    else if present "pseudoClass" qs then 4
    else if present "attr" qs then 3
    else if present "class" qs then 2
    else if present "id" qs then 1
    else 0.
Proof.
  induction qs as [|q qs IH]; [done|].
  change (max_index (q :: qs)) with (Nat.max (index q) (max_index qs)).
  rewrite IH.
  change (q :: qs) with ([q] ++ qs). unfold present.
  repeat rewrite existsb_app. fold (present "pseudoElement" qs).
  fold (present "pseudoClass" qs). fold (present "attr" qs).
  fold (present "class" qs). fold (present "id" qs).
  destruct q; simpl;
    destruct (present "pseudoElement" qs), (present "pseudoClass" qs),
      (present "attr" qs), (present "class" qs), (present "id" qs);
    reflexivity.
Qed.

Ltac split_present qs :=
  destruct (present "element" qs) eqn:?, (present "id" qs) eqn:?,
    (present "class" qs) eqn:?, (present "attr" qs) eqn:?,
    (present "pseudoClass" qs) eqn:?, (present "pseudoElement" qs) eqn:?.

(** Keys in canonical order pass the test. *)
Lemma correctPos_present_keys qs :
  SelectorBuild.correctPos canonical (present_keys qs) = false.
Proof.
  unfold present_keys, canonical. simpl List.filter.
  split_present qs; reflexivity.
Qed.

(** A new key at the end fails the test exactly when a kind of higher
    index is present. *)
Lemma correctPos_new_key qs p :
  present (key p) qs = false ->
  SelectorBuild.correctPos canonical (present_keys qs ++ [key p])
  = (index p <? max_index qs)%nat.
Proof.
  intros H. rewrite max_index_present.
  unfold present_keys, canonical. simpl List.filter.
  destruct p; simpl in H |- *; rewrite H;
    split_present qs; try discriminate; reflexivity.
Qed.

Lemma present_keys_old qs p :
  present (key p) qs = true -> present_keys (qs ++ [p]) = present_keys qs.
Proof.
  intros H. unfold present_keys, canonical. simpl List.filter.
  repeat rewrite present_snoc.
  destruct p; simpl in H |- *; rewrite H; simpl;
    repeat rewrite orb_false_r; reflexivity.
Qed.

Lemma present_keys_new qs p :
  present (key p) qs = false ->
  (index p <? max_index qs)%nat = false ->
  present_keys (qs ++ [p]) = present_keys qs ++ [key p].
Proof.
  intros H. rewrite max_index_present.
  unfold present_keys, canonical. simpl List.filter.
  repeat rewrite present_snoc.
  destruct p; simpl in H |- *; rewrite H; simpl;
    split_present qs; try discriminate; simpl; intros; try discriminate;
    reflexivity.
Qed.

(** ** Fragments and slots *)

Lemma frags_snoc k qs p :
  frags k (qs ++ [p])
  = frags k qs ++ (if String.eqb (key p) k then [fragment p] else []).
Proof.
  unfold frags. rewrite List.filter_app, map_app. simpl.
  by destruct (String.eqb (key p) k).
Qed.

Lemma frags_absent k qs : present k qs = false -> frags k qs = [].
Proof.
  unfold frags, present. induction qs as [|q qs IH]; simpl; [done|].
  intros [H1 H2]%orb_false_iff. rewrite H1. by apply IH.
Qed.

Lemma multi_key_key p : multi_key (key p) = multi p.
Proof. by destruct p. Qed.

Lemma get_elem k v m : JsMap.get k m = Some v -> (k, v) ∈ m.
Proof.
  induction m as [|[k' w] m IH]; simpl; [done|].
  destruct (String.eqb k' k) eqn:E.
  - apply String.eqb_eq in E. intros [= ->]. subst. left.
  - intros H. right. by apply IH.
Qed.

Lemma has_get k m : JsMap.has k m = true -> exists v, JsMap.get k m = Some v.
Proof.
  unfold JsMap.has. induction m as [|[k' w] m IH]; simpl; [done|].
  destruct (String.eqb k' k); simpl; eauto.
Qed.

Lemma elem_has k v m : (k, v) ∈ m -> JsMap.has k m = true.
Proof.
  unfold JsMap.has. induction m as [|[k' w] m IH]; simpl.
  - by intros ?%elem_of_nil.
  - intros [[= -> ->]|H]%elem_of_cons.
    + by rewrite String.eqb_refl.
    + rewrite IH by done. apply orb_true_r.
Qed.

Lemma elem_get k v m :
  NoDup (JsMap.keys m) -> (k, v) ∈ m -> JsMap.get k m = Some v.
Proof.
  unfold JsMap.keys. induction m as [|[k' w] m IH]; simpl.
  - by intros _ ?%elem_of_nil.
  - intros [Hk Hnd]%NoDup_cons [[= -> ->]|H]%elem_of_cons.
    + by rewrite String.eqb_refl.
    + destruct (String.eqb k' k) eqn:E; [|by apply IH].
      apply String.eqb_eq in E. subst k'. destruct Hk.
      apply list_elem_of_fmap. by exists (k, v).
Qed.

Lemma NoDup_present_keys qs : NoDup (present_keys qs).
Proof.
  unfold present_keys. apply NoDup_ListNoDup, List.NoDup_filter.
  apply NoDup_ListNoDup. apply (bool_decide_unpack _). reflexivity.
Qed.

(** ** One call on a built selector *)

Lemma built_has h this b qs p :
  built h this b qs -> JsMap.has (key p) (selectors b) = present (key p) qs.
Proof.
  intros (_ & _ & Hkeys & _). by rewrite has_keys, Hkeys, includes_present_keys.
Qed.

Lemma built_position h this b qs :
  built h this b qs -> position_outcome this b = Return this.
Proof.
  intros (_ & Hpos & Hkeys & _). unfold position_outcome.
  by rewrite Hpos, Hkeys, correctPos_present_keys.
Qed.

Lemma add_duplicate h this b qs p :
  built h this b qs -> verdict_of qs p = Duplicate ->
  add this p h = (Throw DuplicatePartError, h).
Proof.
  intros Hb Hv. pose proof Hb as (Hthis & _).
  rewrite (add_at _ _ _ _ Hthis). unfold verdict_of in Hv.
  destruct (present (key p) qs) eqn:Hp.
  - destruct (multi p); [done|].
    unfold single_outcome. by rewrite (built_has _ _ _ _ _ Hb), Hp.
  - by destruct (index p <? max_index qs)%nat.
Qed.

Lemma add_misplaced h this b qs p :
  built h this b qs -> verdict_of qs p = Misplaced ->
  (add this p h).1 = Throw OrderViolationError.
Proof.
  intros Hb Hv. pose proof Hb as (Hthis & Hpos & Hkeys & _).
  rewrite (add_at _ _ _ _ Hthis). unfold verdict_of in Hv.
  destruct (present (key p) qs) eqn:Hp; [by destruct (multi p)|].
  destruct (index p <? max_index qs)%nat eqn:Hi; [|done].
  pose proof (built_has _ _ _ _ p Hb) as Hhas. rewrite Hp in Hhas.
  assert (forall v,
    position_outcome this
      (with_selectors b (JsMap.set (key p) v (selectors b)))
    = Throw OrderViolationError) as Hout.
  { intros v. unfold position_outcome. simpl.
    rewrite Hpos, (set_new _ _ _ Hhas). unfold JsMap.keys.
    rewrite map_app. fold (JsMap.keys (selectors b)). simpl.
    by rewrite Hkeys, (correctPos_new_key _ _ Hp), Hi. }
  destruct (multi p); unfold multi_outcome, single_outcome;
    rewrite Hhas; simpl; apply Hout.
Qed.

Lemma slot_array h qs k v :
  slot_ok h qs k v -> multi_key k = true ->
  exists l, v = VArray l /\ h !! l = Some (OArray (frags k qs)).
Proof.
  destruct v as [s|l]; simpl; intros [H1 H2] Hm; [congruence|by exists l].
Qed.

Lemma built_NoDup h this b qs : built h this b qs -> NoDup (JsMap.keys (selectors b)).
Proof. intros (_ & _ & -> & _). apply NoDup_present_keys. Qed.

(** An accepted call on a key already present: the fragment goes to the
    end of the key's array. *)
Lemma add_accepted_old h this b qs p :
  built h this b qs -> present (key p) qs = true -> multi p = true ->
  exists l,
    (key p, VArray l) ∈ selectors b
    /\ add this p h
       = (Return this, <[l := OArray (frags (key p) qs ++ [fragment p])]> h)
    /\ built (<[l := OArray (frags (key p) qs ++ [fragment p])]> h) this b
         (qs ++ [p]).
Proof.
  intros Hb Hp Hm. pose proof Hb as (Hthis & Hpos & Hkeys & Hslots & Hinj).
  pose proof (built_has _ _ _ _ p Hb) as Hhas. rewrite Hp in Hhas.
  destruct (has_get _ _ Hhas) as [v Hget].
  pose proof (get_elem _ _ _ Hget) as Hin.
  destruct (slot_array _ _ _ _ (Hslots _ _ Hin)) as (l & -> & Hl);
    [by rewrite multi_key_key|].
  exists l. split; [done|]. split.
  - rewrite (add_at _ _ _ _ Hthis), Hm. unfold multi_outcome.
    by rewrite Hhas, Hget, Hl, (built_position _ _ _ _ Hb).
  - assert (l <> this) as Hne by (intros ->; congruence).
    split; [by rewrite list_lookup_insert_ne|].
    split; [done|]. split; [by rewrite present_keys_old|].
    split; [|done].
    intros k v Hkv. unfold slot_ok. rewrite frags_snoc.
    destruct (String.eqb (key p) k) eqn:E.
    + apply String.eqb_eq in E. subst k.
      pose proof (elem_get _ _ _ (built_NoDup _ _ _ _ Hb) Hkv) as Hget'.
      rewrite Hget in Hget'. injection Hget' as <-. simpl.
      split; [|by rewrite multi_key_key].
      apply list_lookup_insert_eq. by eapply lookup_lt_Some.
    + rewrite app_nil_r. specialize (Hslots _ _ Hkv).
      destruct v as [s|l']; [done|]. simpl in *.
      destruct Hslots as [H1 H2]. split; [|done].
      rewrite list_lookup_insert_ne; [done|].
      intros ->. apply String.eqb_neq in E. apply E. by eapply Hinj.
Qed.

(** An accepted call on a new key: the key goes to the end of the Map. *)
Lemma add_accepted_new h this b qs p :
  built h this b qs -> present (key p) qs = false ->
  (index p <? max_index qs)%nat = false ->
  exists v h',
    let b' := with_selectors b (selectors b ++ [(key p, v)]) in
    add this p h = (Return this, h')
    /\ built h' this b' (qs ++ [p])
    /\ (length h <= length h')%nat
    /\ (forall l, l <> this -> (l < length h)%nat -> h' !! l = h !! l)
    /\ (forall l, v = VArray l -> l = length h).
Proof.
  intros Hb Hp Hi. pose proof Hb as (Hthis & Hpos & Hkeys & Hslots & Hinj).
  pose proof (built_has _ _ _ _ p Hb) as Hhas. rewrite Hp in Hhas.
  assert (forall v,
    position_outcome this
      (with_selectors b (selectors b ++ [(key p, v)])) = Return this) as Hout.
  { intros v. unfold position_outcome. simpl.
    rewrite Hpos. unfold JsMap.keys.
    rewrite map_app. fold (JsMap.keys (selectors b)). simpl.
    by rewrite Hkeys, (correctPos_new_key _ _ Hp), Hi. }
  assert (forall k v, (k, v) ∈ selectors b -> String.eqb (key p) k = false)
    as Hother.
  { intros k v Hkv. apply String.eqb_neq. intros <-.
    apply elem_has in Hkv. congruence. }
  assert (forall k v, (k, v) ∈ selectors b ->
            frags k (qs ++ [p]) = frags k qs) as Hfrags.
  { intros k v Hkv. by rewrite frags_snoc, (Hother _ _ Hkv), app_nil_r. }
  assert (frags (key p) (qs ++ [p]) = [fragment p]) as Hnew.
  { by rewrite frags_snoc, String.eqb_refl, (frags_absent _ _ Hp). }
  pose proof (lookup_lt_Some _ _ _ Hthis) as Hlt.
  rewrite (add_at _ _ _ _ Hthis).
  destruct (multi p) eqn:Hm.
  - exists (VArray (length h)). eexists. simpl.
    unfold multi_outcome. rewrite Hhas, (set_new _ _ _ Hhas), Hout.
    split; [done|]. split; [|split; [|split]].
    + split.
      { rewrite list_lookup_insert_ne by lia.
        apply list_lookup_insert_eq. rewrite length_app. simpl. lia. }
      split; [done|]. split.
      { simpl. unfold JsMap.keys. rewrite map_app.
        fold (JsMap.keys (selectors b)). simpl.
        by rewrite Hkeys, present_keys_new. }
      split.
      * simpl. intros k v [Hkv|Hkv%list_elem_of_singleton]%elem_of_app.
        -- unfold slot_ok. rewrite (Hfrags _ _ Hkv).
           specialize (Hslots _ _ Hkv).
           destruct v as [s|l]; [done|]. simpl in *.
           destruct Hslots as [H1 H2]. split; [|done].
           pose proof (lookup_lt_Some _ _ _ H1).
           rewrite list_lookup_insert_ne by lia.
           rewrite list_lookup_insert_ne by (intros ->; congruence).
           by rewrite lookup_app_l.
        -- injection Hkv as -> ->. unfold slot_ok. rewrite Hnew.
           split; [|by rewrite multi_key_key].
           apply list_lookup_insert_eq. rewrite length_insert, length_app.
           simpl. lia.
      * simpl. intros k1 k2 l [H1|H1%list_elem_of_singleton]%elem_of_app
          [H2|H2%list_elem_of_singleton]%elem_of_app.
        -- by eapply Hinj.
        -- injection H2 as -> ->. destruct (Hslots _ _ H1) as [H3 _].
           apply lookup_lt_Some in H3. lia.
        -- injection H1 as -> ->. destruct (Hslots _ _ H2) as [H3 _].
           apply lookup_lt_Some in H3. lia.
        -- injection H1 as -> _. by injection H2 as -> _.
    + rewrite !length_insert, length_app. simpl. lia.
    + intros l Hl1 Hl2.
      rewrite list_lookup_insert_ne by lia.
      rewrite list_lookup_insert_ne by done.
      by rewrite lookup_app_l.
    + by intros l [= ->].
  - exists (VString (fragment p)). eexists. simpl.
    unfold single_outcome. rewrite Hhas, (set_new _ _ _ Hhas), Hout.
    split; [done|]. split; [|split; [|split]].
    + split; [by apply list_lookup_insert_eq|].
      split; [done|]. split.
      { simpl. unfold JsMap.keys. rewrite map_app.
        fold (JsMap.keys (selectors b)). simpl.
        by rewrite Hkeys, present_keys_new. }
      split.
      * simpl. intros k v [Hkv|Hkv%list_elem_of_singleton]%elem_of_app.
        -- unfold slot_ok. rewrite (Hfrags _ _ Hkv).
           specialize (Hslots _ _ Hkv).
           destruct v as [s|l]; [done|]. simpl in *.
           destruct Hslots as [H1 H2]. split; [|done].
           by rewrite list_lookup_insert_ne by (intros ->; congruence).
        -- injection Hkv as -> ->. unfold slot_ok. rewrite Hnew.
           split; [done|]. by rewrite multi_key_key.
      * simpl. intros k1 k2 l [H1|H1%list_elem_of_singleton]%elem_of_app
          [H2|H2%list_elem_of_singleton]%elem_of_app;
          [by eapply Hinj|done..].
    + by rewrite length_insert.
    + intros l Hl1 Hl2. by rewrite list_lookup_insert_ne.
    + done.
Qed.

Lemma add_accepted h this b qs p :
  built h this b qs -> chain_apart h b -> verdict_of qs p = Accepted ->
  exists b' h',
    add this p h = (Return this, h')
    /\ built h' this b' (qs ++ [p])
    /\ chain_apart h' b'
    /\ arrCombine b' = arrCombine b
    /\ (forall l, VArray l ∈ arrCombine b -> h' !! l = h !! l).
Proof.
  intros Hb Ha Hv. unfold verdict_of in Hv.
  destruct (present (key p) qs) eqn:Hp.
  - destruct (multi p) eqn:Hm; [|done].
    destruct (add_accepted_old _ _ _ _ _ Hb Hp Hm) as (l & Hin & Hadd & Hb').
    assert (forall l0, VArray l0 ∈ arrCombine b -> l0 <> l) as Hne.
    { intros l0 Hl0 ->. destruct (Ha _ Hl0) as [_ Hno]. by apply (Hno (key p)). }
    exists b. eexists. split; [exact Hadd|]. split; [exact Hb'|].
    split; [|split; [done|]].
    + intros l0 Hl0. destruct (Ha _ Hl0) as [[xs Hxs] Hno]. split; [|done].
      exists xs. rewrite list_lookup_insert_ne; [done|].
      intros ->. by apply (Hne l0).
    + intros l0 Hl0. rewrite list_lookup_insert_ne; [done|].
      intros ->. by apply (Hne l0).
  - destruct (index p <? max_index qs)%nat eqn:Hi; [done|].
    destruct (add_accepted_new _ _ _ _ _ Hb Hp Hi)
      as (v & h' & Hadd & Hb' & Hlen & Hframe & Hv').
    pose proof Hb as (Hthis & _).
    assert (forall l0, VArray l0 ∈ arrCombine b -> h' !! l0 = h !! l0)
      as Hsame.
    { intros l0 Hl0. destruct (Ha _ Hl0) as [[xs Hxs] _].
      apply Hframe; [intros ->; congruence|by eapply lookup_lt_Some]. }
    eexists. exists h'. split; [exact Hadd|]. split; [exact Hb'|].
    split; [|split; [done|exact Hsame]].
    intros l0 Hl0. simpl in Hl0. destruct (Ha _ Hl0) as [[xs Hxs] Hno].
    split; [exists xs; by rewrite Hsame|].
    intros k [Hk|Hk%list_elem_of_singleton]%elem_of_app; [by eapply Hno|].
    injection Hk as _ <-. specialize (Hv' _ eq_refl).
    apply lookup_lt_Some in Hxs. lia.
Qed.

Lemma chain_accepted ps h this b qs :
  built h this b qs -> chain_apart h b -> all_accepted qs ps = true ->
  exists b' h',
    chain this ps h = (Return this, h')
    /\ built h' this b' (qs ++ ps)
    /\ chain_apart h' b'
    /\ arrCombine b' = arrCombine b
    /\ (forall l, VArray l ∈ arrCombine b -> h' !! l = h !! l).
Proof.
  revert h b qs. induction ps as [|p ps IH]; intros h b qs Hb Ha Hall.
  - exists b, h. rewrite app_nil_r. do 4 (split; [done|]). done.
  - simpl in Hall. destruct (verdict_of qs p) eqn:Hv; try done.
    destruct (add_accepted _ _ _ _ _ Hb Ha Hv)
      as (b1 & h1 & Hadd & Hb1 & Ha1 & HC1 & Hf1).
    destruct (IH _ _ _ Hb1 Ha1 Hall) as (b2 & h2 & Hch & Hb2 & Ha2 & HC2 & Hf2).
    exists b2, h2. simpl. unfold bind. rewrite Hadd.
    split; [done|]. rewrite <- app_assoc in Hb2. split; [done|].
    split; [done|]. split; [congruence|].
    intros l Hl. rewrite Hf2 by (by rewrite HC1). by apply Hf1.
Qed.

Lemma chain_refused ps h this b qs :
  built h this b qs -> chain_apart h b -> all_accepted qs ps = false ->
  exists e, (chain this ps h).1 = Throw e.
Proof.
  revert h b qs. induction ps as [|p ps IH]; intros h b qs Hb Ha Hall;
    [done|].
  simpl in Hall. simpl. unfold bind.
  destruct (verdict_of qs p) eqn:Hv.
  - destruct (add_accepted _ _ _ _ _ Hb Ha Hv)
      as (b1 & h1 & Hadd & Hb1 & Ha1 & _).
    rewrite Hadd. by eapply IH.
  - rewrite (add_duplicate _ _ _ _ _ Hb Hv). by eexists.
  - pose proof (add_misplaced _ _ _ _ _ Hb Hv) as Hm.
    destruct (add this p h) as [r h1]. simpl in Hm. subst r. by eexists.
Qed.

(** A new instance, or any instance whose Map is still empty, is built by
    no calls. *)
Lemma built_empty h this b :
  h !! this = Some (OSelectorBuild b) -> positions b = canonical ->
  selectors b = [] -> built h this b [].
Proof.
  intros H Hpos Hsel. split; [done|]. split; [done|]. rewrite Hsel.
  split; [done|]. split; [by intros k v ?%elem_of_nil|].
  by intros k1 k2 l ?%elem_of_nil.
Qed.

Lemma constructor_built h :
  SelectorBuild.constructor h
  = (Return (length h),
     h ++ [OSelectorBuild
             {| positions := canonical; selectors := []; arrCombine := [] |}]).
Proof. reflexivity. Qed.

(** ** Strings and [join] *)

Lemma append_empty_r s : s +:+ "" = s.
Proof.
  induction s as [|c s IH]; [done|].
  change (String c s +:+ "") with (String c (s +:+ "")). by rewrite IH.
Qed.

Lemma append_assoc s1 s2 s3 : (s1 +:+ s2) +:+ s3 = s1 +:+ s2 +:+ s3.
Proof.
  induction s1 as [|c s1 IH]; [done|].
  change (String c ((s1 +:+ s2) +:+ s3) = String c (s1 +:+ s2 +:+ s3)).
  by rewrite IH.
Qed.

Lemma join_cons x xs : JsArray.join (x :: xs) = x +:+ JsArray.join xs.
Proof.
  unfold JsArray.join. destruct xs as [|y xs]; [|done].
  symmetry. apply append_empty_r.
Qed.

Lemma join_app xs ys :
  JsArray.join (xs ++ ys) = JsArray.join xs +:+ JsArray.join ys.
Proof.
  induction xs as [|x xs IH]; [done|].
  rewrite <- app_comm_cons, !join_cons, IH. by rewrite append_assoc.
Qed.

(** ** [flat] reads the store and leaves it as it is *)

Lemma flat_store vs h : (JsArray.flat vs h).2 = h.
Proof.
  induction vs as [|v vs IH]; [done|]. simpl. unfold bind.
  assert ((JsArray.flat1 v h).2 = h) as H1.
  { destruct v as [s|l]; [done|]. simpl. unfold read_array.
    by destruct (h !! l) as [[xs|b]|]. }
  destruct (JsArray.flat1 v h) as [[xs|e] h1]; simpl in H1; subst h1;
    [|done].
  destruct (JsArray.flat vs h) as [[ys|e] h2]; simpl in IH; by subst h2.
Qed.

Lemma flat_app vs1 vs2 h xs ys :
  JsArray.flat vs1 h = (Return xs, h) ->
  JsArray.flat vs2 h = (Return ys, h) ->
  JsArray.flat (vs1 ++ vs2) h = (Return (xs ++ ys), h).
Proof.
  revert xs. induction vs1 as [|v vs1 IH]; intros xs H1 H2.
  - injection H1 as <-. done.
  - simpl in *. unfold bind in *.
    destruct (JsArray.flat1 v h) as [[zs|e] h1] eqn:Hv; [|done].
    assert (h1 = h) as ->.
    { destruct v as [s|l]; simpl in Hv; [by injection Hv|].
      unfold read_array in Hv. destruct (h !! l) as [[ws|b]|]; congruence. }
    destruct (JsArray.flat vs1 h) as [[ws|e] h2] eqn:Hvs; [|done].
    injection H1 as <- ->. rewrite (IH _ eq_refl H2).
    by rewrite app_assoc.
Qed.

(** [flat] sees only the arrays its argument refers to. *)
Lemma flat_frame vs (h h' : heap) xs :
  (forall l o, VArray l ∈ vs -> h !! l = Some o -> h' !! l = Some o) ->
  JsArray.flat vs h = (Return xs, h) ->
  JsArray.flat vs h' = (Return xs, h').
Proof.
  revert xs. induction vs as [|v vs IH]; intros xs Hsame H.
  - injection H as <-. done.
  - simpl in *. unfold bind in *.
    destruct (JsArray.flat1 v h) as [[zs|e] h1] eqn:Hv; [|done].
    assert (h1 = h /\ JsArray.flat1 v h' = (Return zs, h')) as [-> ->].
    { destruct v as [s|l]; simpl in *; [by injection Hv as <- <-|].
      unfold read_array in *.
      destruct (h !! l) as [[ws|b]|] eqn:Hl; try done.
      injection Hv as <- <-. by rewrite (Hsame l _ (list_elem_of_here _ _) Hl). }
    destruct (JsArray.flat vs h) as [[ws|e] h2] eqn:Hvs; [|done].
    assert (h2 = h) as -> by (by rewrite <- (flat_store vs h), Hvs).
    injection H as <-. erewrite IH; [done| |done].
    intros l o Hl. apply Hsame. by right.
Qed.

Lemma flat_Return_arrays vs h xs l :
  JsArray.flat vs h = (Return xs, h) -> VArray l ∈ vs ->
  exists ys, h !! l = Some (OArray ys).
Proof.
  revert xs. induction vs as [|v vs IH]; intros xs H Hl.
  - by apply elem_of_nil in Hl.
  - simpl in H. unfold bind in H.
    destruct (JsArray.flat1 v h) as [[zs|e] h1] eqn:Hv; [|done].
    assert (h1 = h) as ->.
    { destruct v as [s|l']; simpl in Hv; [by injection Hv|].
      unfold read_array in Hv. destruct (h !! l') as [[ws|b]|]; congruence. }
    destruct (JsArray.flat vs h) as [[ws|e] h2] eqn:Hvs; [|done].
    assert (h2 = h) as -> by (by rewrite <- (flat_store vs h), Hvs).
    apply elem_of_cons in Hl as [<-|Hl]; [|by eapply IH].
    simpl in Hv. unfold read_array in Hv.
    destruct (h !! l) as [[us|b]|]; try done. by exists us.
Qed.

(** The Map of a built selector flattens to the fragments of its keys. *)
Lemma flat_slots h qs sel :
  (forall k v, (k, v) ∈ sel -> slot_ok h qs k v) ->
  JsArray.flat (JsMap.values sel) h
  = (Return (flat_map (fun k => frags k qs) (JsMap.keys sel)), h).
Proof.
  induction sel as [|[k v] sel IH]; intros Hs; [done|].
  simpl. unfold bind.
  assert (JsArray.flat1 v h = (Return (frags k qs), h)) as ->.
  { specialize (Hs k v (list_elem_of_here _ _)).
    destruct v as [s|l]; simpl in *; destruct Hs as [H1 _].
    - by rewrite H1.
    - unfold read_array. by rewrite H1. }
  fold (JsMap.values sel). rewrite IH; [done|].
  intros k' v' H. apply Hs. by right.
Qed.

Lemma flat_map_present_keys qs :
  flat_map (fun k => frags k qs) (present_keys qs)
  = flat_map (fun k => frags k qs) canonical.
Proof.
  unfold present_keys. induction canonical as [|k ks IH]; simpl; [done|].
  destruct (present k qs) eqn:Hk; simpl; rewrite IH; [done|].
  by rewrite (frags_absent _ _ Hk).
Qed.

Lemma stringify_at h this b :
  h !! this = Some (OSelectorBuild b) ->
  SelectorBuild.stringify this h
  = (if (0 <? length (arrCombine b))%nat then
       xs <- JsArray.flat (arrCombine b) ;; ret (JsArray.join xs)
     else
       xs <- JsArray.flat (JsMap.values (selectors b)) ;;
       ret (JsArray.join xs)) h.
Proof.
  intros H. unfold SelectorBuild.stringify. unfold bind at 1.
  by rewrite (read_selector_at _ _ _ H).
Qed.

(** [stringify] on a selector built by accepted calls, with no chain. *)
Lemma stringify_built h this b qs :
  built h this b qs -> arrCombine b = [] ->
  SelectorBuild.stringify this h = (Return (canonical_render qs), h).
Proof.
  intros (Hthis & _ & Hkeys & Hslots & _) HC.
  rewrite (stringify_at _ _ _ Hthis), HC. simpl. unfold bind.
  rewrite (flat_slots _ _ _ Hslots), Hkeys, flat_map_present_keys.
  reflexivity.
Qed.

(** ** Chains of calls on a new selector *)

Lemma add_accepted_built h this b qs p :
  built h this b qs -> verdict_of qs p = Accepted ->
  exists b' h',
    add this p h = (Return this, h') /\ built h' this b' (qs ++ [p])
    /\ arrCombine b' = arrCombine b.
Proof.
  intros Hb Hv. unfold verdict_of in Hv.
  destruct (present (key p) qs) eqn:Hp.
  - destruct (multi p) eqn:Hm; [|done].
    destruct (add_accepted_old _ _ _ _ _ Hb Hp Hm) as (l & _ & Hadd & Hb').
    by exists b; eexists.
  - destruct (index p <? max_index qs)%nat eqn:Hi; [done|].
    destruct (add_accepted_new _ _ _ _ _ Hb Hp Hi)
      as (v & h' & Hadd & Hb' & _).
    by eexists; exists h'.
Qed.

(** A chain on a built selector returns exactly when every call of it is
    accepted, and then it has built the longer sequence. *)
Lemma chain_built ps h this b qs r h' :
  built h this b qs -> chain this ps h = (Return r, h') ->
  r = this /\ all_accepted qs ps = true
  /\ exists b', built h' this b' (qs ++ ps) /\ arrCombine b' = arrCombine b.
Proof.
  revert h b qs. induction ps as [|p ps IH]; intros h b qs Hb Hch.
  - injection Hch as <- <-. rewrite app_nil_r. eauto.
  - simpl in *. unfold bind in Hch. destruct (verdict_of qs p) eqn:Hv.
    + destruct (add_accepted_built _ _ _ _ _ Hb Hv)
        as (b1 & h1 & Hadd & Hb1 & HC1).
      rewrite Hadd in Hch.
      destruct (IH _ _ _ Hb1 Hch) as (-> & Hall & b2 & Hb2 & HC2).
      rewrite <- app_assoc in Hb2. rewrite HC1 in HC2. eauto.
    + by rewrite (add_duplicate _ _ _ _ _ Hb Hv) in Hch.
    + pose proof (add_misplaced _ _ _ _ _ Hb Hv) as Hm.
      destruct (add this p h) as [r1 h1]. simpl in Hm. by subst r1.
Qed.

Lemma max_index_bound qs n :
  (forall q, q ∈ qs -> index q <= n) -> max_index qs <= n.
Proof.
  induction qs as [|q qs IH]; intros H; simpl; [lia|].
  apply Nat.max_lub; [apply H; left|apply IH].
  intros q' Hq'. apply H. by right.
Qed.

Lemma present_elem k qs : present k qs = true <-> exists q, q ∈ qs /\ key q = k.
Proof.
  unfold present. rewrite existsb_exists. split.
  - intros (q & Hq%list_elem_of_In & E%String.eqb_eq). eauto.
  - intros (q & Hq%list_elem_of_In & E%String.eqb_eq). eauto.
Qed.

Lemma multi_same_key p q : key p = key q -> multi p = multi q.
Proof. by destruct p, q. Qed.

(** Calls in non-decreasing canonical order, no single-valued kind twice,
    are all accepted. *)
Lemma ordered_accepted ps qs :
  (forall q p, q ∈ qs -> p ∈ ps -> index q <= index p) ->
  (forall p, p ∈ ps -> multi p = false -> present (key p) qs = false) ->
  non_decreasing ps = true -> singles_once ps = true ->
  all_accepted qs ps = true.
Proof.
  revert qs. induction ps as [|p ps IH]; intros qs Hle Hnew Hnd Hso; [done|].
  simpl in *. apply andb_true_iff in Hnd as [Hp Hnd].
  apply andb_true_iff in Hso as [Hp1 Hso].
  rewrite forallb_forall in Hp.
  assert (verdict_of qs p = Accepted) as ->.
  { unfold verdict_of. destruct (present (key p) qs) eqn:Hpres.
    - destruct (multi p) eqn:Hm; [done|].
      rewrite Hnew in Hpres; [done|left|done].
    - assert (max_index qs <= index p) as Hmax.
      { apply max_index_bound. intros q Hq. apply Hle; [done|left]. }
      by apply Nat.ltb_ge in Hmax as ->. }
  apply IH; [| |done|done].
  - intros q p' [Hq|Hq%list_elem_of_singleton]%elem_of_app Hp'.
    + apply Hle; [done|by right].
    + subst q. apply Nat.leb_le, Hp. by apply list_elem_of_In.
  - intros p' Hp' Hm. rewrite present_snoc.
    rewrite (Hnew p') by (done || by right). simpl.
    apply String.eqb_neq. intros E.
    rewrite (multi_same_key _ _ E), Hm in Hp1. simpl in Hp1.
    apply negb_true_iff in Hp1.
    assert (present (key p) ps = true) as Hin
      by (apply present_elem; eauto).
    congruence.
Qed.

Lemma constructor_new h :
  built (SelectorBuild.constructor h).2 (length h)
    {| positions := canonical; selectors := []; arrCombine := [] |} [].
Proof.
  apply built_empty; [|done|done]. simpl. apply lookup_alloc_new.
Qed.

(** C4. For every sequence [ps] of part-adding calls, made through the
    facade on a new selector, whose canonical indices never fall: when the
    calls return, [stringify] returns the fragments with their prefixes in
    canonical kind order, each kind in insertion order, with nothing in
    between; and the calls do return when no single-valued kind is given
    twice. *)
Theorem C4_stringify_canonical_order h ps :
  non_decreasing ps = true ->
  (forall this h',
     (s <- SelectorBuild.constructor ;; chain s ps) h = (Return this, h') ->
     SelectorBuild.stringify this h' = (Return (canonical_render ps), h'))
  /\ (singles_once ps = true ->
      exists this h',
        (s <- SelectorBuild.constructor ;; chain s ps) h = (Return this, h')).
Proof.
  intros Hnd. pose proof (constructor_new h) as Hnew. split.
  - intros this h' Hrun. unfold bind in Hrun. simpl in Hrun, Hnew.
    destruct (chain_built _ _ _ _ _ _ _ Hnew Hrun)
      as (-> & _ & b' & Hb' & HC).
    by eapply stringify_built.
  - intros Hso.
    assert (all_accepted [] ps = true) as Hall.
    { apply ordered_accepted; try done.
      - by intros q p ?%elem_of_nil.  }
    destruct (chain_accepted ps _ _ _ _ Hnew) as (b2 & h2 & Hch & _);
      [by intros l ?%elem_of_nil|done|].
    exists (length h), h2. unfold bind. simpl. exact Hch.
Qed.

(** C1, as the code has it.  On a selector whose Map was empty and on which
    the calls [ps] were then all accepted, a further call [p] throws the
    order error exactly when its kind is not yet present and its canonical
    index is strictly less than the highest canonical index added so far.
    A call on a kind already present never throws the order error there. *)
Theorem C1_order_error_on_new_kind_only h0 this b0 ps r h p :
  h0 !! this = Some (OSelectorBuild b0) ->
  positions b0 = canonical ->
  selectors b0 = [] ->
  chain this ps h0 = (Return r, h) ->
  (add this p h).1 = Throw OrderViolationError
  <-> present (key p) ps = false /\ index p < max_index ps.
Proof.
  intros H Hpos Hsel Hch.
  destruct (chain_built _ _ _ _ _ _ _ (built_empty _ _ _ H Hpos Hsel) Hch)
    as (_ & _ & b & Hb & _).
  simpl in Hb.
  destruct (verdict_of ps p) eqn:Hv.
  - destruct (add_accepted_built _ _ _ _ _ Hb Hv) as (b1 & h1 & Hadd & _).
    rewrite Hadd. unfold verdict_of in Hv. split; [done|].
    intros [Hp Hi]. apply Nat.ltb_lt in Hi. by rewrite Hp, Hi in Hv.
  - rewrite (add_duplicate _ _ _ _ _ Hb Hv). unfold verdict_of in Hv.
    split; [intros [=]|]. intros [Hp Hi]. apply Nat.ltb_lt in Hi.
    by rewrite Hp, Hi in Hv.
  - rewrite (add_misplaced _ _ _ _ _ Hb Hv). unfold verdict_of in Hv.
    split; [|done]. intros _.
    destruct (present (key p) ps); [by destruct (multi p)|].
    destruct (index p <? max_index ps)%nat eqn:Hi; [|done].
    by apply Nat.ltb_lt in Hi.
Qed.

Lemma C1_order_error_on_new_kind_only_witness :
  let h0 := [OSelectorBuild empty_instance] in
  let ps := [Id "main"] in
  let h := (chain 0 ps h0).2 in
  let p := Element "div" in
  h0 !! 0 = Some (OSelectorBuild empty_instance)
  /\ chain 0 ps h0 = (Return 0, h)
  /\ ((add 0 p h).1 = Throw OrderViolationError
      <-> present (key p) ps = false /\ index p < max_index ps).
Proof.
  split; [reflexivity|]. split; [reflexivity|].
  apply (C1_order_error_on_new_kind_only
           [OSelectorBuild empty_instance] 0 empty_instance [Id "main"] 0
           (chain 0 [Id "main"] [OSelectorBuild empty_instance]).2
           (Element "div"));
    reflexivity.
Defined.

(** C1 as the specification states it fails: after [class('a').attr('b')] the
    canonical index of a further [class] call is below the highest index
    added, and the call is accepted. *)
Lemma C1_counterexample :
  let h := (s <- cssSelectorBuilder.class "a" ;; SelectorBuild.attr s "b") [] in
  h.1 = Return 0
  /\ index (Class "c") < max_index [Class "a"; Attr "b"]
  /\ (SelectorBuild.class 0 "c" h.2).1 = Return 0
  /\ (SelectorBuild.class 0 "c" h.2).1 <> Throw OrderViolationError.
Proof. repeat split; [simpl; lia|discriminate]. Qed.

(** ** The order test on arbitrary keys *)

Lemma some_from_app p i l1 l2 :
  JsArray.some_from p i (l1 ++ l2)
  = JsArray.some_from p i l1 || JsArray.some_from p (i + length l1) l2.
Proof.
  revert i. induction l1 as [|x l1 IH]; intros i; simpl.
  - by rewrite Nat.add_0_r.
  - rewrite IH, <- orb_assoc. do 3 f_equal. lia.
Qed.

Lemma includes_elem x l : JsArray.includes x l = true <-> x ∈ l.
Proof.
  unfold JsArray.includes. rewrite existsb_exists. split.
  - by intros (y & Hy%list_elem_of_In & ->%String.eqb_eq).
  - intros H. exists x. split; [by apply list_elem_of_In|].
    apply String.eqb_refl.
Qed.

Lemma includes_snoc x l k :
  JsArray.includes x (l ++ [k]) = JsArray.includes x l || String.eqb x k.
Proof.
  unfold JsArray.includes. rewrite existsb_app. simpl.
  by rewrite orb_false_r.
Qed.

(** Distinct strings that all occur in [ks] are no more than [ks] has
    entries. *)
Lemma includes_length (l ks : list string) :
  NoDup l -> (forall x, x ∈ l -> JsArray.includes x ks = true) ->
  length l <= length ks.
Proof.
  intros Hnd Hin. apply submseteq_length, NoDup_submseteq; [done|].
  intros x Hx. by apply includes_elem, Hin.
Qed.

(** A key appended after the keys [ks] fails the order test as soon as it
    stands after its canonical place. *)
Lemma correctPos_last ks k :
  (JsArray.indexOf k
     (JsArray.filter (fun selec => JsArray.includes selec (ks ++ [k]))
        canonical)
   < Z.of_nat (length ks))%Z ->
  SelectorBuild.correctPos canonical (ks ++ [k]) = true.
Proof.
  intros H. unfold SelectorBuild.correctPos, JsArray.some.
  rewrite some_from_app. simpl. rewrite orb_false_r.
  apply orb_true_iff. right. by apply Z.gtb_lt.
Qed.

Lemma correctPos_class_after_attr ks :
  JsArray.includes "attr" ks = true ->
  SelectorBuild.correctPos canonical (ks ++ ["class"]) = true.
Proof.
  intros Hattr. apply correctPos_last.
  unfold JsArray.filter, canonical. simpl List.filter.
  rewrite !includes_snoc. simpl. rewrite !orb_false_r, orb_true_r.
  destruct (JsArray.includes "element" ks) eqn:He,
    (JsArray.includes "id" ks) eqn:Hi; simpl.
  - assert (length ["element"; "id"; "attr"] <= length ks) as Hlen.
    { apply includes_length; [apply (bool_decide_unpack _); reflexivity|].
      intros x Hx. repeat apply elem_of_cons in Hx as [->|Hx]; try done.
      by apply elem_of_nil in Hx. }
    simpl in Hlen. lia.
  - assert (length ["element"; "attr"] <= length ks) as Hlen.
    { apply includes_length; [apply (bool_decide_unpack _); reflexivity|].
      intros x Hx. repeat apply elem_of_cons in Hx as [->|Hx]; try done.
      by apply elem_of_nil in Hx. }
    simpl in Hlen. lia.
  - assert (length ["id"; "attr"] <= length ks) as Hlen.
    { apply includes_length; [apply (bool_decide_unpack _); reflexivity|].
      intros x Hx. repeat apply elem_of_cons in Hx as [->|Hx]; try done.
      by apply elem_of_nil in Hx. }
    simpl in Hlen. lia.
  - assert (length ["attr"] <= length ks) as Hlen.
    { apply includes_length; [apply (bool_decide_unpack _); reflexivity|].
      intros x Hx. repeat apply elem_of_cons in Hx as [->|Hx]; try done.
      by apply elem_of_nil in Hx. }
    simpl in Hlen. lia.
Qed.

Lemma correctPos_element_after_id ks :
  JsArray.includes "id" ks = true ->
  SelectorBuild.correctPos canonical (ks ++ ["element"]) = true.
Proof.
  intros Hid. apply correctPos_last.
  unfold JsArray.filter, canonical. simpl List.filter.
  rewrite !includes_snoc. simpl. rewrite orb_true_r. simpl.
  assert (length ["id"] <= length ks) as Hlen.
  { apply includes_length; [apply (bool_decide_unpack _); reflexivity|].
    intros x Hx. repeat apply elem_of_cons in Hx as [->|Hx]; try done.
    by apply elem_of_nil in Hx. }
  simpl in Hlen. lia.
Qed.

Lemma keys_snoc m k v : JsMap.keys (m ++ [(k, v)]) = JsMap.keys m ++ [k].
Proof. unfold JsMap.keys. by rewrite map_app. Qed.

(** C7, as the code has it.  On every selector that has an attribute part
    and no class part, [class] throws the order error; on every selector
    that has an id part and no element part, [element] throws the order
    error. *)
Theorem C7_order_error_class_after_attr_element_after_id h this b v :
  h !! this = Some (OSelectorBuild b) ->
  positions b = canonical ->
  (JsMap.has "attr" (selectors b) = true ->
   JsMap.has "class" (selectors b) = false ->
   (SelectorBuild.class this v h).1 = Throw OrderViolationError)
  /\ (JsMap.has "id" (selectors b) = true ->
      JsMap.has "element" (selectors b) = false ->
      (SelectorBuild.element this v h).1 = Throw OrderViolationError).
Proof.
  intros H Hpos. split.
  - intros Hattr Hclass.
    change (SelectorBuild.class this v h) with (add this (Class v) h).
    rewrite (add_at _ _ _ _ H). simpl. unfold multi_outcome.
    rewrite Hclass, (set_new _ _ _ Hclass). simpl.
    unfold position_outcome. simpl. rewrite Hpos, keys_snoc.
    rewrite correctPos_class_after_attr; [done|]. by rewrite <- has_keys.
  - intros Hid Helement.
    change (SelectorBuild.element this v h) with (add this (Element v) h).
    rewrite (add_at _ _ _ _ H). simpl. unfold single_outcome.
    rewrite Helement, (set_new _ _ _ Helement). simpl.
    unfold position_outcome. simpl. rewrite Hpos, keys_snoc.
    rewrite correctPos_element_after_id; [done|]. by rewrite <- has_keys.
Qed.

Lemma C7_order_error_class_after_attr_element_after_id_witness :
  let h := (s <- cssSelectorBuilder.id "main" ;;
            SelectorBuild.attr s "href") [] in
  let b := {| positions := canonical;
              selectors := [("id", VString "#main"); ("attr", VArray 1)];
              arrCombine := [] |} in
  h.2 !! 0 = Some (OSelectorBuild b)
  /\ positions b = canonical
  /\ (SelectorBuild.class 0 "c" h.2).1 = Throw OrderViolationError
  /\ (SelectorBuild.element 0 "div" h.2).1 = Throw OrderViolationError.
Proof.
  split; [reflexivity|]. split; [reflexivity|].
  pose proof (C7_order_error_class_after_attr_element_after_id
                ((s <- cssSelectorBuilder.id "main" ;;
                  SelectorBuild.attr s "href") []).2
                0
                {| positions := canonical;
                   selectors := [("id", VString "#main"); ("attr", VArray 1)];
                   arrCombine := [] |}
                "c" eq_refl eq_refl) as [H1 _].
  pose proof (C7_order_error_class_after_attr_element_after_id
                ((s <- cssSelectorBuilder.id "main" ;;
                  SelectorBuild.attr s "href") []).2
                0
                {| positions := canonical;
                   selectors := [("id", VString "#main"); ("attr", VArray 1)];
                   arrCombine := [] |}
                "div" eq_refl eq_refl) as [_ H2].
  split; [apply H1|apply H2]; reflexivity.
Defined.

(** C7 as the specification states it fails: [element('div').id('main')] has an id
    part, and a further [element] call throws the duplicate error, not the
    order error. *)
Lemma C7_counterexample :
  let h := (s <- cssSelectorBuilder.element "div" ;;
            SelectorBuild.id s "main") [] in
  h.1 = Return 0
  /\ (exists b, h.2 !! 0 = Some (OSelectorBuild b)
                /\ JsMap.has "id" (selectors b) = true)
  /\ (SelectorBuild.element 0 "p" h.2).1 = Throw DuplicatePartError
  /\ (SelectorBuild.element 0 "p" h.2).1 <> Throw OrderViolationError.
Proof.
  split; [reflexivity|]. split; [by eexists|]. split; [reflexivity|].
  discriminate.
Qed.

(** ** What a throwing call leaves behind *)

Lemma position_outcome_throw this b e :
  position_outcome this b = Throw e -> e = OrderViolationError.
Proof.
  unfold position_outcome. destruct (SelectorBuild.correctPos _ _); [|done].
  by intros [= <-].
Qed.

Lemma insert_changes (h : heap) l o o' :
  h !! l = Some o -> o' <> o -> <[l := o']> h <> h.
Proof.
  intros H Hne Heq. apply Hne.
  assert (<[l := o']> h !! l = Some o') as H'
    by (by eapply lookup_written).
  rewrite Heq in H'. congruence.
Qed.

(** What [flat] returns contains what its entries hold. *)
Lemma flat_contains vs h xs v :
  JsArray.flat vs h = (Return xs, h) -> v ∈ vs ->
  match v with
  | VString s => s ∈ xs
  | VArray l => forall ys y, h !! l = Some (OArray ys) -> y ∈ ys -> y ∈ xs
  end.
Proof.
  revert xs. induction vs as [|w vs IH]; intros xs H Hv.
  - by apply elem_of_nil in Hv.
  - simpl in H. unfold bind in H.
    destruct (JsArray.flat1 w h) as [[zs|e] h1] eqn:Hw; [|done].
    assert (h1 = h) as ->.
    { destruct w as [s|l']; simpl in Hw; [by injection Hw|].
      unfold read_array in Hw. destruct (h !! l') as [[ws|b]|]; congruence. }
    destruct (JsArray.flat vs h) as [[ws|e] h2] eqn:Hvs; [|done].
    assert (h2 = h) as -> by (by rewrite <- (flat_store vs h), Hvs).
    injection H as <-.
    apply elem_of_cons in Hv as [->|Hv].
    + destruct w as [s|l]; simpl in Hw.
      * injection Hw as <-. apply elem_of_app. left. left.
      * unfold read_array in Hw. intros ys y Hl Hy. rewrite Hl in Hw.
        injection Hw as <-. apply elem_of_app. by left.
    + specialize (IH _ eq_refl Hv). destruct v as [s|l].
      * apply elem_of_app. by right.
      * intros ys y Hl Hy. apply elem_of_app. right. by eapply IH.
Qed.

(** A stored fragment is among the fragments [stringify] joins when the
    selector has no chain. *)
Lemma stored_flat h this p b xs :
  stored h this p ->
  h !! this = Some (OSelectorBuild b) ->
  JsArray.flat (JsMap.values (selectors b)) h = (Return xs, h) ->
  fragment p ∈ xs.
Proof.
  intros (b' & Hb' & Hget) Hb Hflat.
  assert (b' = b) as -> by congruence.
  destruct (JsMap.get (key p) (selectors b)) as [v|] eqn:Hv; [|done].
  assert (v ∈ JsMap.values (selectors b)) as Hin.
  { apply get_elem in Hv. unfold JsMap.values.
    apply list_elem_of_fmap. by exists (key p, v). }
  pose proof (flat_contains _ _ _ _ Hflat Hin) as Hc.
  destruct v as [s|arr].
  - by subst s.
  - destruct Hget as [ys Hys]. eapply Hc; [exact Hys|].
    apply elem_of_app. right. left.
Qed.

(** The defect behind C3 in general.  A part-adding call that throws the
    duplicate error leaves the store exactly as it was: [validUniq] runs
    before the write.  A call that throws the order error has already
    written, since [validPosition] runs after the write: the store is not
    the one before the call, the rejected fragment lies under the call's
    key, and it is among the fragments that [stringify] joins for a
    selector without chain. *)
Lemma throwing_call_keeps_its_write h this b p e h' :
  h !! this = Some (OSelectorBuild b) ->
  add this p h = (Throw e, h') ->
  (e = DuplicatePartError -> h' = h)
  /\ (e = OrderViolationError ->
      h' <> h
      /\ stored h' this p
      /\ forall b' xs,
           h' !! this = Some (OSelectorBuild b') ->
           JsArray.flat (JsMap.values (selectors b')) h' = (Return xs, h') ->
           fragment p ∈ xs).
Proof.
  intros H Hadd.
  assert ((e = DuplicatePartError -> h' = h)
          /\ (e = OrderViolationError -> h' <> h /\ stored h' this p))
    as [Hdup Hord].
  { revert Hadd. rewrite (add_at _ _ _ _ H).
    destruct (multi p) eqn:Hm.
    - unfold multi_outcome. destruct (JsMap.has _ _) eqn:Hhas.
      + destruct (JsMap.get _ _) as [[s|arr]|] eqn:Hget;
          try (intros [= <- <-]; by split).
        destruct (h !! arr) as [[xs|b0]|] eqn:Harr;
          try (intros [= <- <-]; by split).
        intros [= Hout <-]. apply position_outcome_throw in Hout as ->.
        split; [intros E; by destruct (errors_differ E)|]. intros _. split.
        * eapply insert_changes; [done|]. intros [= E].
          apply (f_equal length) in E. rewrite length_app in E.
          simpl in E. lia.
        * exists b. split.
          { rewrite list_lookup_insert_ne; [done|]. intros ->. congruence. }
          rewrite Hget. exists xs. by eapply lookup_written.
      + intros [= Hout <-]. apply position_outcome_throw in Hout as ->.
        split; [intros E; by destruct (errors_differ E)|]. intros _. split.
        * intros E. apply (f_equal length) in E.
          rewrite !length_insert, length_app in E. simpl in E. lia.
        * pose proof (lookup_lt_Some _ _ _ H) as Hlt.
          eexists. split.
          { rewrite list_lookup_insert_ne by lia.
            eapply lookup_written, lookup_alloc_old, H. }
          simpl. rewrite get_set_same. exists [].
          apply list_lookup_insert_eq. rewrite length_insert, length_app.
          simpl. lia.
    - unfold single_outcome. destruct (JsMap.has _ _) eqn:Hhas.
      + intros [= <- <-]. split; [done|]. intros E.
        by destruct (errors_differ (eq_sym E)).
      + intros [= Hout <-]. apply position_outcome_throw in Hout as ->.
        split; [intros E; by destruct (errors_differ E)|]. intros _. split.
        * eapply insert_changes; [done|]. intros [= E].
          apply (f_equal selectors) in E. simpl in E.
          rewrite (set_new _ _ _ Hhas) in E.
          apply (f_equal length) in E. rewrite length_app in E.
          simpl in E. lia.
        * eexists. split; [by eapply lookup_written|].
          simpl. by rewrite get_set_same. }
  split; [exact Hdup|]. intros He. destruct (Hord He) as [Hne Hst].
  split; [exact Hne|]. split; [exact Hst|].
  intros b' xs Hb' Hflat. by eapply stored_flat.
Qed.

Lemma throwing_call_keeps_its_write_example :
  let h := (cssSelectorBuilder.id "a" []).2 in
  let h' := (SelectorBuild.element 0 "b" h).2 in
  h !! 0 = Some (OSelectorBuild
                   {| positions := canonical;
                      selectors := [("id", VString "#a")];
                      arrCombine := [] |})
  /\ add 0 (Element "b") h = (Throw OrderViolationError, h')
  /\ h' <> h
  /\ stored h' 0 (Element "b").
Proof.
  split; [reflexivity|]. split; [reflexivity|].
  destruct (throwing_call_keeps_its_write
              (cssSelectorBuilder.id "a" []).2 0
              {| positions := canonical;
                 selectors := [("id", VString "#a")];
                 arrCombine := [] |}
              (Element "b") OrderViolationError
              (SelectorBuild.element 0 "b" (cssSelectorBuilder.id "a" []).2).2
              eq_refl eq_refl) as [_ Hord].
  destruct (Hord eq_refl) as (Hne & Hst & _). by split.
Defined.

(** C3.  The code at [id('a')] followed by [element('b')]: the call throws
    the order error, yet the store after it is not the store before it.
    The rejected fragment stays in the Map: [stringify], which returns
    ['#a'] before the call, returns ['#ab'] after it, where the state
    immediately before the failing call renders ['#a'].  The duplicate
    path on the same selector, [id('c')], throws and leaves the store as
    it was. *)
Theorem C3_rejected_fragment_is_kept :
  let h := (cssSelectorBuilder.id "a" []).2 in
  let h' := (SelectorBuild.element 0 "b" h).2 in
  (SelectorBuild.element 0 "b" h).1 = Throw OrderViolationError
  /\ h' <> h
  /\ (SelectorBuild.stringify 0 h).1 = Return "#a"
  /\ (SelectorBuild.stringify 0 h').1 = Return "#ab"
  /\ SelectorBuild.id 0 "c" h = (Throw DuplicatePartError, h).
Proof.
  split; [reflexivity|]. split; [discriminate|].
  split; [reflexivity|]. split; reflexivity.
Qed.

(** C2.  The code at [combine(combine(x, '~', y), '+', z)] with
    [x = element('a')], [y = element('b')], [z = element('c')]: the chain
    of the left argument is dropped, and [stringify] returns [' + c'] where
    the three renderings joined by the combinators are ['a ~ b + c']. *)
Theorem C2_left_combination_dropped :
  run (x <- cssSelectorBuilder.element "a" ;;
       y <- cssSelectorBuilder.element "b" ;;
       z <- cssSelectorBuilder.element "c" ;;
       sx <- SelectorBuild.stringify x ;;
       sy <- SelectorBuild.stringify y ;;
       sz <- SelectorBuild.stringify z ;;
       xy <- cssSelectorBuilder.combine x "~" y ;;
       r <- cssSelectorBuilder.combine xy "+" z ;;
       s <- SelectorBuild.stringify r ;;
       ret (s, sx +:+ " ~ " +:+ sy +:+ " + " +:+ sz))
  = Return (" + c", "a ~ b + c").
Proof. reflexivity. Qed.

(** ** [combine] *)

Lemma insert_alloc {A} (h : list A) o o' : <[length h := o']> (h ++ [o]) = h ++ [o'].
Proof. rewrite insert_app_r_alt by lia. by rewrite Nat.sub_diag. Qed.

(** The store after the facade's [combine] is the store before it and one
    new object. *)
Lemma combine_allocates h selec1 separ selec2 :
  exists o, (cssSelectorBuilder.combine selec1 separ selec2 h).2 = h ++ [o].
Proof.
  unfold cssSelectorBuilder.combine, SelectorBuild.combine, bind. simpl.
  destruct (read_selector selec1 _) as [[b1|e] h1] eqn:H1.
  - assert (h1 = h ++ [OSelectorBuild empty_instance]) as ->.
    { unfold read_selector in H1.
      destruct (_ !! selec1) as [[xs|b]|]; by injection H1. }
    destruct (read_selector selec2 _) as [[b2|e] h2] eqn:H2.
    + assert (h2 = h ++ [OSelectorBuild empty_instance]) as ->.
      { unfold read_selector in H2.
        destruct (_ !! selec2) as [[xs|b]|]; by injection H2. }
      rewrite (read_selector_at _ _ _ (lookup_alloc_new h _)).
      rewrite (write_selector_at _ _ _ _ (lookup_alloc_new h _)).
      simpl. rewrite insert_alloc. by eexists.
    + unfold read_selector in H2.
      destruct (_ !! selec2) as [[xs|b]|]; injection H2 as _ <-; by eexists.
  - unfold read_selector in H1.
    destruct (_ !! selec1) as [[xs|b]|]; injection H1 as _ <-; by eexists.
Qed.

Lemma combine_at h selec1 separ selec2 b1 b2 :
  h !! selec1 = Some (OSelectorBuild b1) ->
  h !! selec2 = Some (OSelectorBuild b2) ->
  cssSelectorBuilder.combine selec1 separ selec2 h
  = (Return (length h),
     h ++ [OSelectorBuild
             {| positions := canonical;
                selectors := [];
                arrCombine :=
                  JsMap.values (selectors b1)
                    ++ [VString (" " +:+ separ +:+ " ")]
                    ++ JsMap.values (selectors b2)
                    ++ arrCombine b2 |}]).
Proof.
  intros H1 H2.
  unfold cssSelectorBuilder.combine, SelectorBuild.combine, bind. simpl.
  rewrite (read_selector_at _ _ _ (lookup_alloc_old _ _ _ _ H1)).
  rewrite (read_selector_at _ _ _ (lookup_alloc_old _ _ _ _ H2)).
  rewrite (read_selector_at _ _ _ (lookup_alloc_new h _)).
  rewrite (write_selector_at _ _ _ _ (lookup_alloc_new h _)).
  simpl. by rewrite insert_alloc.
Qed.

(** What the facade's [combine] returns is the new object. *)
Lemma combine_fresh h selec1 separ selec2 c :
  (cssSelectorBuilder.combine selec1 separ selec2 h).1 = Return c ->
  c = length h.
Proof.
  unfold cssSelectorBuilder.combine, SelectorBuild.combine, bind. simpl.
  destruct (read_selector selec1 _) as [[b1|e] h1]; [|done].
  destruct (read_selector selec2 h1) as [[b2|e] h2]; [|done].
  destruct (read_selector (length h) h2) as [[b3|e] h3]; [|done].
  destruct (write_selector _ _ h3) as [[[]|e] h4]; [|done].
  by intros [= <-].
Qed.

(** ** [stringify] *)

Lemma stringify_store this h : (SelectorBuild.stringify this h).2 = h.
Proof.
  unfold SelectorBuild.stringify, bind, read_selector.
  destruct (h !! this) as [[xs|b]|]; try done.
  destruct (0 <? length (arrCombine b))%nat.
  - pose proof (flat_store (arrCombine b) h) as H.
    by destruct (JsArray.flat (arrCombine b) h) as [[ys|e] h1].
  - pose proof (flat_store (JsMap.values (selectors b)) h) as H.
    by destruct (JsArray.flat (JsMap.values (selectors b)) h) as [[ys|e] h1].
Qed.

(** What [stringify] returned, it flattened. *)
Lemma stringify_Return this h str :
  (SelectorBuild.stringify this h).1 = Return str ->
  exists b xs,
    h !! this = Some (OSelectorBuild b)
    /\ JsArray.flat (if (0 <? length (arrCombine b))%nat then arrCombine b
                     else JsMap.values (selectors b)) h = (Return xs, h)
    /\ str = JsArray.join xs.
Proof.
  unfold SelectorBuild.stringify, bind, read_selector.
  destruct (h !! this) as [[ys|b]|]; try done.
  intros H. exists b.
  destruct (0 <? length (arrCombine b))%nat.
  - pose proof (flat_store (arrCombine b) h) as Hs.
    destruct (JsArray.flat (arrCombine b) h) as [[xs|e] h1]; [|done].
    simpl in *. subst h1. injection H as <-. by exists xs.
  - pose proof (flat_store (JsMap.values (selectors b)) h) as Hs.
    destruct (JsArray.flat (JsMap.values (selectors b)) h) as [[xs|e] h1];
      [|done].
    simpl in *. subst h1. injection H as <-. by exists xs.
Qed.

Lemma stringify_flat this h b xs :
  h !! this = Some (OSelectorBuild b) ->
  JsArray.flat (if (0 <? length (arrCombine b))%nat then arrCombine b
                else JsMap.values (selectors b)) h = (Return xs, h) ->
  SelectorBuild.stringify this h = (Return (JsArray.join xs), h).
Proof.
  intros H Hflat. rewrite (stringify_at _ _ _ H).
  destruct (0 <? length (arrCombine b))%nat; unfold bind; by rewrite Hflat.
Qed.

(** [stringify] returns the same on a store that keeps every object. *)
Lemma stringify_frame this (h h' : heap) str :
  (forall l o, h !! l = Some o -> h' !! l = Some o) ->
  (SelectorBuild.stringify this h).1 = Return str ->
  (SelectorBuild.stringify this h').1 = Return str.
Proof.
  intros Hsame (b & xs & H & Hflat & ->)%stringify_Return.
  rewrite (stringify_flat _ _ _ _ (Hsame _ _ H)
             (flat_frame _ _ _ _ (fun l o _ => Hsame l o) Hflat)).
  done.
Qed.

Lemma stringify_chain this h b xs :
  h !! this = Some (OSelectorBuild b) ->
  arrCombine b <> [] ->
  JsArray.flat (arrCombine b) h = (Return xs, h) ->
  SelectorBuild.stringify this h = (Return (JsArray.join xs), h).
Proof.
  intros H Hne Hflat. apply (stringify_flat _ _ _ _ H).
  destruct (arrCombine b); [done|]. exact Hflat.
Qed.

(** C5. For selectors [a] and [b] that are no combination results,
    [combine(a, token, b)] returns a selector whose rendering is the
    rendering of [a], a space, the token as given, a space, and the
    rendering of [b]; with the token ['+'] that is
    [a.stringify() + ' + ' + b.stringify()]. *)
Theorem C5_combine_renders_both_sides h a b ba bb token sa sb :
  h !! a = Some (OSelectorBuild ba) ->
  h !! b = Some (OSelectorBuild bb) ->
  arrCombine ba = [] ->
  arrCombine bb = [] ->
  (SelectorBuild.stringify a h).1 = Return sa ->
  (SelectorBuild.stringify b h).1 = Return sb ->
  exists c h',
    cssSelectorBuilder.combine a token b h = (Return c, h')
    /\ SelectorBuild.stringify c h'
       = (Return (sa +:+ " " +:+ token +:+ " " +:+ sb), h').
Proof.
  intros Ha Hb HCa HCb Hsa Hsb.
  apply stringify_Return in Hsa as (ba' & xa & Ha' & Hxa & ->).
  apply stringify_Return in Hsb as (bb' & xb & Hb' & Hxb & ->).
  assert (ba' = ba) as -> by congruence.
  assert (bb' = bb) as -> by congruence.
  rewrite HCa in Hxa. rewrite HCb in Hxb. simpl in Hxa, Hxb.
  eexists. eexists. split; [by apply combine_at|].
  set (h' := h ++ _).
  assert (forall l o, h !! l = Some o -> h' !! l = Some o) as Hsame.
  { intros l o Hl. by apply lookup_alloc_old. }
  pose proof (flat_frame _ _ h' _ (fun l o _ => Hsame l o) Hxa) as Hxa'.
  pose proof (flat_frame _ _ h' _ (fun l o _ => Hsame l o) Hxb) as Hxb'.
  remember (" " +:+ token +:+ " ") as t eqn:Ht.
  erewrite stringify_chain; [| apply lookup_alloc_new | |]; cycle 1.
  { simpl. by destruct (JsMap.values (selectors ba)). }
  { simpl. rewrite HCb, app_nil_r.
    apply flat_app; [exact Hxa'|].
    apply (flat_app [VString t] _ _ [t]); [done|exact Hxb']. }
  f_equal. f_equal. rewrite join_app. f_equal.
  change ([t] ++ xb) with (t :: xb). rewrite join_cons. subst t.
  by rewrite !append_assoc.
Qed.

(** C8. The facade's [combine] leaves every object of the store as it
    was, the two selectors it is given and their arrays among them: what it
    returns is a new object, and [stringify] on any selector returns after
    the call the string it returned before. *)
Theorem C8_combine_leaves_its_arguments h selec1 separ selec2 :
  let h' := (cssSelectorBuilder.combine selec1 separ selec2 h).2 in
  (forall l o, h !! l = Some o -> h' !! l = Some o)
  /\ (forall c,
        (cssSelectorBuilder.combine selec1 separ selec2 h).1 = Return c ->
        h !! c = None)
  /\ (forall s str,
        (SelectorBuild.stringify s h).1 = Return str ->
        (SelectorBuild.stringify s h').1 = Return str).
Proof.
  intros h'.
  assert (forall l o, h !! l = Some o -> h' !! l = Some o) as Hsame.
  { intros l o Hl. subst h'.
    destruct (combine_allocates h selec1 separ selec2) as [o' ->].
    by apply lookup_alloc_old. }
  split; [exact Hsame|]. split.
  - intros c ->%combine_fresh. by apply lookup_ge_None.
  - intros s str. by apply stringify_frame.
Qed.

Lemma C8_combine_leaves_its_arguments_witness :
  let h := ((x <- cssSelectorBuilder.class "a" ;;
             cssSelectorBuilder.element "b") []).2 in
  let h' := (cssSelectorBuilder.combine 0 "+" 2 h).2 in
  (cssSelectorBuilder.combine 0 "+" 2 h).1 = Return 3
  /\ h !! 3 = None
  /\ (SelectorBuild.stringify 0 h).1 = Return ".a"
  /\ (SelectorBuild.stringify 0 h').1 = Return ".a"
  /\ (SelectorBuild.stringify 2 h).1 = Return "b"
  /\ (SelectorBuild.stringify 2 h').1 = Return "b".
Proof.
  pose proof (C8_combine_leaves_its_arguments
                ((x <- cssSelectorBuilder.class "a" ;;
                  cssSelectorBuilder.element "b") []).2 0 "+" 2)
    as (_ & Hfresh & Hsame).
  split; [reflexivity|]. split; [by apply Hfresh|].
  split; [reflexivity|]. split; [by apply Hsame|].
  split; [reflexivity|]. by apply Hsame.
Defined.

(** C9. On the selector [c] that the facade's [combine] returns for two
    selectors, every sequence of part-adding calls that is accepted on a
    new empty selector is accepted too, and [stringify] returns after the
    calls the string it returned before them: the chain alone, none of the
    fragments added since. *)
Theorem C9_parts_added_after_combine_are_not_rendered
    h selec1 separ selec2 b1 b2 c h1 str ps h0 r hf :
  h !! selec1 = Some (OSelectorBuild b1) ->
  h !! selec2 = Some (OSelectorBuild b2) ->
  cssSelectorBuilder.combine selec1 separ selec2 h = (Return c, h1) ->
  (SelectorBuild.stringify c h1).1 = Return str ->
  (s <- SelectorBuild.constructor ;; chain s ps) h0 = (Return r, hf) ->
  exists h2,
    chain c ps h1 = (Return c, h2)
    /\ (SelectorBuild.stringify c h2).1 = Return str.
Proof.
  intros H1 H2 Hcomb Hstr Hfresh.
  rewrite (combine_at _ _ _ _ _ _ H1 H2) in Hcomb.
  injection Hcomb as <- <-.
  set (bc := {| positions := canonical; selectors := []; arrCombine := _ |})
    in *.
  set (h1 := h ++ [OSelectorBuild bc]) in *.
  assert (h1 !! length h = Some (OSelectorBuild bc)) as Hc
    by apply lookup_alloc_new.
  assert (arrCombine bc <> []) as Hne.
  { simpl. by destruct (JsMap.values (selectors b1)). }
  apply stringify_Return in Hstr as (bc' & xs & Hc' & Hflat & ->).
  assert (bc' = bc) as -> by congruence.
  assert (JsArray.flat (arrCombine bc) h1 = (Return xs, h1)) as Hflat'.
  { destruct (arrCombine bc); [done|exact Hflat]. }
  assert (built h1 (length h) bc []) as Hb by (by apply built_empty).
  assert (chain_apart h1 bc) as Ha.
  { intros l Hl. split; [by eapply flat_Return_arrays|].
    by intros k ?%elem_of_nil. }
  unfold bind in Hfresh. simpl in Hfresh.
  pose proof (constructor_new h0) as Hnew. simpl in Hnew.
  destruct (chain_built _ _ _ _ _ _ _ Hnew Hfresh) as (_ & Hall & _).
  destruct (chain_accepted ps _ _ _ _ Hb Ha Hall)
    as (b' & h2 & Hch & (Hc2 & _) & _ & HC & Hframe).
  exists h2. split; [exact Hch|].
  erewrite stringify_chain; [done|exact Hc2|by rewrite HC|].
  rewrite HC. eapply flat_frame; [|exact Hflat'].
  intros l o Hl Ho. by rewrite Hframe.
Qed.

Lemma C9_parts_added_after_combine_are_not_rendered_witness :
  let h := ((x <- cssSelectorBuilder.class "a" ;;
             cssSelectorBuilder.element "b") []).2 in
  let h1 := (cssSelectorBuilder.combine 0 "+" 2 h).2 in
  let ps := [Element "div"; Class "late"] in
  cssSelectorBuilder.combine 0 "+" 2 h = (Return 3, h1)
  /\ (SelectorBuild.stringify 3 h1).1 = Return ".a + b"
  /\ exists h2,
       chain 3 ps h1 = (Return 3, h2)
       /\ (SelectorBuild.stringify 3 h2).1 = Return ".a + b".
Proof.
  split; [reflexivity|]. split; [reflexivity|].
  eapply (C9_parts_added_after_combine_are_not_rendered
            ((x <- cssSelectorBuilder.class "a" ;;
              cssSelectorBuilder.element "b") []).2
            0 "+" 2 _ _ 3 _ ".a + b" [Element "div"; Class "late"] [] 0);
    reflexivity.
Defined.

Lemma C4_stringify_canonical_order_witness :
  let ps := [Element "div"; Id "main"; Class "container"; Class "draggable";
             Attr "title"; PseudoClass "hover"; PseudoElement "after"] in
  non_decreasing ps = true
  /\ singles_once ps = true
  /\ exists this h',
       (s <- SelectorBuild.constructor ;; chain s ps) [] = (Return this, h')
       /\ SelectorBuild.stringify this h'
          = (Return "div#main.container.draggable[title]:hover::after", h').
Proof.
  split; [reflexivity|]. split; [reflexivity|].
  destruct (C4_stringify_canonical_order []
              [Element "div"; Id "main"; Class "container"; Class "draggable";
               Attr "title"; PseudoClass "hover"; PseudoElement "after"]
              eq_refl) as [Hrender Hreturns].
  destruct (Hreturns eq_refl) as (this & h' & Hrun).
  exists this, h'. split; [exact Hrun|]. exact (Hrender this h' Hrun).
Defined.

Lemma C5_combine_renders_both_sides_witness :
  let h := ((a <- cssSelectorBuilder.element "div" ;;
             a <- SelectorBuild.id a "main" ;;
             b <- cssSelectorBuilder.element "table" ;;
             SelectorBuild.id b "data") []).2 in
  (SelectorBuild.stringify 0 h).1 = Return "div#main"
  /\ (SelectorBuild.stringify 1 h).1 = Return "table#data"
  /\ exists c h',
       cssSelectorBuilder.combine 0 "+" 1 h = (Return c, h')
       /\ SelectorBuild.stringify c h' = (Return "div#main + table#data", h').
Proof.
  split; [reflexivity|]. split; [reflexivity|].
  eapply (C5_combine_renders_both_sides
            ((a <- cssSelectorBuilder.element "div" ;;
              a <- SelectorBuild.id a "main" ;;
              b <- cssSelectorBuilder.element "table" ;;
              SelectorBuild.id b "data") []).2
            0 1 _ _ "+" "div#main" "table#data"); reflexivity.
Defined.

Lemma C6_duplicate_single_valued_parts_witness :
  let h := [OSelectorBuild empty_instance] in
  h !! 0 = Some (OSelectorBuild empty_instance)
  /\ (let h' := attempts 0 [Class "c"] (SelectorBuild.id 0 "a" h).2 in
      SelectorBuild.id 0 "b" h' = (Throw DuplicatePartError, h')).
Proof.
  split; [reflexivity|].
  exact (proj1 (C6_duplicate_single_valued_parts
                  [OSelectorBuild empty_instance] 0 empty_instance
                  "a" [Class "c"] "b" eq_refl)).
Defined.

(** The method [combine] writes to [this] and to nothing else: an argument
    is changed only when it is [this] itself, which the facade rules out by
    calling the method on a new instance. *)
Lemma combine_writes_this_only h this selector1 combinator selector2 l :
  l <> this ->
  (SelectorBuild.combine this selector1 combinator selector2 h).2 !! l
  = h !! l.
Proof.
  intros Hne. unfold SelectorBuild.combine, bind, read_selector.
  destruct (h !! selector1) as [[xs|b1]|]; try done.
  destruct (h !! selector2) as [[xs|b2]|]; try done.
  destruct (h !! this) as [[xs|b]|] eqn:Hthis; try done.
  unfold write_selector. rewrite Hthis. simpl.
  by rewrite list_lookup_insert_ne.
Qed.

(** The defect behind C2 in general: a selector whose Map is empty, as a
    combination result is, contributes nothing as the left argument,
    whatever its chain holds. *)
Lemma combine_drops_left_chain h x z bx bz token sz :
  h !! x = Some (OSelectorBuild bx) ->
  selectors bx = [] ->
  h !! z = Some (OSelectorBuild bz) ->
  arrCombine bz = [] ->
  (SelectorBuild.stringify z h).1 = Return sz ->
  exists c h',
    cssSelectorBuilder.combine x token z h = (Return c, h')
    /\ SelectorBuild.stringify c h'
       = (Return (" " +:+ token +:+ " " +:+ sz), h').
Proof.
  intros Hx Hsel Hz HC Hsz.
  apply stringify_Return in Hsz as (bz' & xz & Hz' & Hxz & ->).
  assert (bz' = bz) as -> by congruence.
  rewrite HC in Hxz. simpl in Hxz.
  eexists. eexists. split; [by apply combine_at|].
  set (h' := h ++ _).
  assert (forall l o, h !! l = Some o -> h' !! l = Some o) as Hsame.
  { intros l o Hl. by apply lookup_alloc_old. }
  pose proof (flat_frame _ _ h' _ (fun l o _ => Hsame l o) Hxz) as Hxz'.
  remember (" " +:+ token +:+ " ") as t eqn:Ht.
  erewrite stringify_chain; [| apply lookup_alloc_new | |]; cycle 1.
  { simpl. by rewrite Hsel. }
  { simpl. rewrite Hsel, HC, app_nil_r. simpl.
    apply (flat_app [VString t] _ _ [t]); [done|exact Hxz']. }
  f_equal. f_equal. change ([t] ++ xz) with (t :: xz). rewrite join_cons.
  subst t. by rewrite !append_assoc.
Qed.

(** ** The order test on every Map

    The keys of a Map are distinct and among the six kinds, so there are
    finitely many key lists; a statement about all of them is checked by
    running through them. *)

Lemma explore_step P fuel ks :
  explore P (S fuel) ks
  = P ks && forallb (fun k => if JsArray.includes k ks then true
                              else explore P fuel (ks ++ [k])) canonical.
Proof. reflexivity. Qed.

Lemma explore_sound P fuel ks :
  explore P fuel ks = true ->
  forall ext,
    length ext <= fuel -> NoDup (ks ++ ext) ->
    (forall k, k ∈ ext -> k ∈ canonical) ->
    P (ks ++ ext) = true.
Proof.
  revert ks. induction fuel as [|fuel IH]; intros ks H ext Hlen Hnd Hin.
  - destruct ext; [|simpl in Hlen; lia]. rewrite app_nil_r.
    simpl in H. by apply andb_true_iff in H as [H _].
  - rewrite explore_step in H. apply andb_true_iff in H as [HP Hall].
    destruct ext as [|k ext]; [by rewrite app_nil_r|].
    rewrite forallb_forall in Hall.
    assert (JsArray.includes k ks = false) as Hk.
    { apply not_true_iff_false. intros Hk%includes_elem.
      apply NoDup_app in Hnd as (_ & Hdisj & _). apply (Hdisj _ Hk). left. }
    assert (In k canonical) as HkIn by (apply list_elem_of_In, Hin; left).
    specialize (Hall k HkIn). rewrite Hk in Hall.
    change (k :: ext) with ([k] ++ ext) in Hnd |- *.
    rewrite (assoc_L app ks [k] ext) in Hnd |- *.
    apply IH; [|simpl in Hlen; lia|done|].
    + exact Hall.
    + intros k' Hk'. apply Hin. by right.
Qed.

Lemma well_keyed_length ks : well_keyed ks -> length ks <= 6.
Proof.
  intros [Hnd Hin].
  change 6 with (length canonical).
  by apply submseteq_length, NoDup_submseteq.
Qed.

Lemma explore_all P ks :
  explore P 6 [] = true -> well_keyed ks -> P ks = true.
Proof.
  intros H Hwk. pose proof (well_keyed_length _ Hwk) as Hlen.
  destruct Hwk as [Hnd Hin].
  exact (explore_sound P 6 [] H ks Hlen Hnd Hin).
Qed.

Lemma well_keyed_snoc ks k :
  well_keyed ks -> k ∈ canonical -> JsArray.includes k ks = false ->
  well_keyed (ks ++ [k]).
Proof.
  intros [Hnd Hin] Hk Hnew. split.
  - apply NoDup_app. split; [done|]. split; [|apply NoDup_singleton].
    intros x Hx ->%list_elem_of_singleton.
    apply includes_elem in Hx. congruence.
  - intros x [Hx| ->%list_elem_of_singleton]%elem_of_app; [by apply Hin|done].
Qed.

(** X1. On every list of distinct keys among the six kinds, the test of
    [validPosition] fails exactly when the keys do not stand in strictly
    increasing canonical index: the method throws the order error when,
    and only when, the insertion order of the Map's keys differs from
    their canonical order. *)
Theorem X1_validPosition_throws_iff_keys_out_of_order h this b :
  h !! this = Some (OSelectorBuild b) ->
  positions b = canonical ->
  well_keyed (JsMap.keys (selectors b)) ->
  SelectorBuild.validPosition this h
  = (if increasing (JsMap.keys (selectors b)) then Return tt
     else Throw OrderViolationError, h).
Proof.
  intros H Hpos Hwk. rewrite (validPosition_at _ _ _ H).
  unfold position_outcome. rewrite Hpos.
  assert (fails_unless_increasing (JsMap.keys (selectors b)) = true) as Hf.
  { apply explore_all; [|done]. by vm_compute. }
  unfold fails_unless_increasing in Hf. apply eqb_prop in Hf. rewrite Hf.
  by destruct (increasing _).
Qed.

Lemma X1_validPosition_throws_iff_keys_out_of_order_witness :
  let b := {| positions := canonical;
              selectors := [("class", VArray 1); ("id", VString "#a")];
              arrCombine := [] |} in
  let h := [OSelectorBuild b; OArray [".c"]] in
  h !! 0 = Some (OSelectorBuild b)
  /\ well_keyed (JsMap.keys (selectors b))
  /\ SelectorBuild.validPosition 0 h = (Throw OrderViolationError, h).
Proof.
  assert (well_keyed ["class"; "id"]) as Hwk.
  { split; [apply (bool_decide_unpack _); reflexivity|].
    intros k Hk. apply (bool_decide_unpack _).
    repeat apply elem_of_cons in Hk as [->|Hk]; try reflexivity.
    by apply elem_of_nil in Hk. }
  split; [reflexivity|]. split; [exact Hwk|].
  exact (X1_validPosition_throws_iff_keys_out_of_order
           [OSelectorBuild
              {| positions := canonical;
                 selectors := [("class", VArray 1); ("id", VString "#a")];
                 arrCombine := [] |}; OArray [".c"]] 0 _ eq_refl eq_refl Hwk).
Defined.

(** ** After an order error *)

Lemma misplaced_stays ks k :
  well_keyed ks -> k ∈ canonical -> JsArray.includes k ks = false ->
  SelectorBuild.correctPos canonical ks = true ->
  SelectorBuild.correctPos canonical (ks ++ [k]) = true.
Proof.
  intros Hwk Hk Hnew Hfail.
  assert (stays_misplaced ks = true) as Hs.
  { apply explore_all; [|done]. by vm_compute. }
  unfold stays_misplaced in Hs. rewrite Hfail in Hs.
  rewrite forallb_forall in Hs.
  specialize (Hs k (proj1 (list_elem_of_In _ _) Hk)).
  by rewrite Hnew in Hs.
Qed.

Lemma key_elem_canonical p : key p ∈ canonical.
Proof. apply includes_elem, key_canonical. Qed.

(** On a selector whose keys fail the order test, a call is never
    accepted, and the keys fail the test after it too. *)
Lemma add_misplaced_again h this p :
  misplaced h this ->
  (exists e, (add this p h).1 = Throw e) /\ misplaced (add this p h).2 this.
Proof.
  intros (b & H & Hpos & Hwk & Hfail).
  assert (forall v,
    JsMap.has (key p) (selectors b) = false ->
    let b' := with_selectors b (JsMap.set (key p) v (selectors b)) in
    position_outcome this b' = Throw OrderViolationError
    /\ forall h', h' !! this = Some (OSelectorBuild b') -> misplaced h' this)
    as Hnew.
  { intros v Hhas b'.
    assert (JsMap.keys (selectors b')
            = JsMap.keys (selectors b) ++ [key p]) as Hkeys.
    { subst b'. simpl. by rewrite (set_new _ _ _ Hhas), keys_snoc. }
    rewrite has_keys in Hhas.
    pose proof (misplaced_stays _ _ Hwk (key_elem_canonical p) Hhas Hfail)
      as Hfail'.
    split.
    - unfold position_outcome. rewrite Hkeys. simpl. by rewrite Hpos, Hfail'.
    - intros h' Hh'. exists b'. split; [done|]. split; [done|].
      rewrite Hkeys. split; [|done].
      by apply well_keyed_snoc; [|apply key_elem_canonical|]. }
  assert (position_outcome this b = Throw OrderViolationError) as Hold.
  { unfold position_outcome. by rewrite Hpos, Hfail. }
  assert (misplaced h this) as Hsame by (by exists b).
  rewrite (add_at _ _ _ _ H).
  destruct (multi p); unfold multi_outcome, single_outcome.
  - destruct (JsMap.has _ _) eqn:Hhas.
    + destruct (JsMap.get _ _) as [[s|arr]|]; try (split; [by eexists|done]).
      destruct (h !! arr) as [[xs|b0]|] eqn:Harr;
        try (split; [by eexists|done]).
      simpl. split; [by eexists|]. exists b.
      split; [|done]. rewrite list_lookup_insert_ne; [done|].
      intros ->. congruence.
    + destruct (Hnew (VArray (length h)) eq_refl) as [Hout Hmis].
      simpl. split; [by eexists|]. apply Hmis.
      rewrite list_lookup_insert_ne by (by eapply length_ne_lookup_old).
      eapply lookup_written, lookup_alloc_old, H.
  - destruct (JsMap.has _ _) eqn:Hhas; [split; [by eexists|done]|].
    destruct (Hnew (VString (fragment p)) eq_refl) as [Hout Hmis].
    simpl. split; [by eexists|]. apply Hmis. by eapply lookup_written.
Qed.

Lemma attempts_misplaced qs h this :
  misplaced h this -> misplaced (attempts this qs h) this.
Proof.
  revert h. induction qs as [|q qs IH]; intros h H; [done|].
  simpl. apply IH. by apply add_misplaced_again.
Qed.

(** The call that throws the order error leaves keys that fail the
    test. *)
Lemma order_error_misplaces h this b p :
  h !! this = Some (OSelectorBuild b) ->
  positions b = canonical ->
  well_keyed (JsMap.keys (selectors b)) ->
  (add this p h).1 = Throw OrderViolationError ->
  misplaced (add this p h).2 this.
Proof.
  intros H Hpos Hwk.
  assert (forall b', position_outcome this b' = Throw OrderViolationError ->
            positions b' = canonical ->
            SelectorBuild.correctPos canonical (JsMap.keys (selectors b'))
            = true) as Hfail.
  { intros b' Hout Hpos'. unfold position_outcome in Hout.
    rewrite Hpos' in Hout. by destruct (SelectorBuild.correctPos _ _). }
  assert (forall v, JsMap.has (key p) (selectors b) = false ->
            well_keyed
              (JsMap.keys (JsMap.set (key p) v (selectors b)))) as Hwk'.
  { intros v Hhas. rewrite (set_new _ _ _ Hhas), keys_snoc.
    apply well_keyed_snoc; [done|apply key_elem_canonical|].
    by rewrite <- has_keys. }
  rewrite (add_at _ _ _ _ H).
  destruct (multi p); unfold multi_outcome, single_outcome.
  - destruct (JsMap.has _ _) eqn:Hhas.
    + destruct (JsMap.get _ _) as [[s|arr]|]; try done.
      destruct (h !! arr) as [[xs|b0]|] eqn:Harr; try done.
      simpl. intros Hout. exists b. split; [|by auto].
      rewrite list_lookup_insert_ne; [done|]. intros ->. congruence.
    + simpl. intros Hout. eexists. split; [|split; [|split]].
      * rewrite list_lookup_insert_ne by (by eapply length_ne_lookup_old).
        eapply lookup_written, lookup_alloc_old, H.
      * done.
      * by apply Hwk'.
      * by apply Hfail.
  - destruct (JsMap.has _ _) eqn:Hhas; [intros [=]|].
    simpl. intros Hout. eexists. split; [|split; [|split]].
    * by eapply lookup_written.
    * done.
    * by apply Hwk'.
    * by apply Hfail.
Qed.

(** X2. Once a part-adding call has thrown the order error on a selector,
    no part-adding call on that selector is accepted again: whatever calls
    [qs] are attempted after it, a further call [q] throws. *)
Theorem X2_no_call_accepted_after_an_order_error h this b p qs q :
  h !! this = Some (OSelectorBuild b) ->
  positions b = canonical ->
  well_keyed (JsMap.keys (selectors b)) ->
  (add this p h).1 = Throw OrderViolationError ->
  exists e, (add this q (attempts this qs (add this p h).2)).1 = Throw e.
Proof.
  intros H Hpos Hwk Hthrow.
  pose proof (order_error_misplaces _ _ _ _ H Hpos Hwk Hthrow) as Hmis.
  by apply add_misplaced_again, attempts_misplaced.
Qed.

Lemma well_keyed_nil : well_keyed [].
Proof. split; [apply NoDup_nil_2|by intros k ?%elem_of_nil]. Qed.

Lemma X2_no_call_accepted_after_an_order_error_witness :
  let h := (cssSelectorBuilder.id "a" []).2 in
  (add 0 (Element "div") h).1 = Throw OrderViolationError
  /\ exists e,
       (add 0 (PseudoElement "after")
          (attempts 0 [Class "c"] (add 0 (Element "div") h).2)).1 = Throw e.
Proof.
  split; [reflexivity|].
  apply (X2_no_call_accepted_after_an_order_error
           (cssSelectorBuilder.id "a" []).2 0
           {| positions := canonical;
              selectors := [("id", VString "#a")];
              arrCombine := [] |}
           (Element "div") [Class "c"] (PseudoElement "after"));
    try reflexivity.
  apply (well_keyed_snoc [] "id" well_keyed_nil); [|reflexivity].
  apply (bool_decide_unpack _). reflexivity.
Defined.

(** Every call keeps the keys well-formed, so every selector that starts
    from the constructor has them so. *)
Lemma add_well_keyed h this b p :
  h !! this = Some (OSelectorBuild b) ->
  well_keyed (JsMap.keys (selectors b)) ->
  exists b',
    (add this p h).2 !! this = Some (OSelectorBuild b')
    /\ positions b' = positions b
    /\ well_keyed (JsMap.keys (selectors b')).
Proof.
  intros H Hwk. destruct (add_instance _ _ _ p H) as [H'|[v H']].
  - by exists b.
  - eexists. split; [exact H'|]. split; [done|]. simpl.
    destruct (JsMap.has (key p) (selectors b)) eqn:Hhas.
    + by rewrite keys_set_old.
    + rewrite (set_new _ _ _ Hhas), keys_snoc.
      apply well_keyed_snoc; [done|apply key_elem_canonical|].
      by rewrite <- has_keys.
Qed.

Lemma attempts_well_keyed qs h this b :
  h !! this = Some (OSelectorBuild b) ->
  well_keyed (JsMap.keys (selectors b)) ->
  exists b',
    attempts this qs h !! this = Some (OSelectorBuild b')
    /\ positions b' = positions b
    /\ well_keyed (JsMap.keys (selectors b')).
Proof.
  revert h b. induction qs as [|q qs IH]; intros h b H Hwk.
  - by exists b.
  - destruct (add_well_keyed _ _ _ q H Hwk) as (b1 & H1 & Hp1 & Hwk1).
    destruct (IH _ _ H1 Hwk1) as (b2 & H2 & Hp2 & Hwk2).
    exists b2. simpl. split; [done|]. split; [congruence|done].
Qed.

(** ** Chains in any order *)

(** X3. A chain of part-adding calls on a new selector returns exactly
    when every call of it either adds to a multi-valued kind that is
    already present or adds a kind not yet present whose canonical index
    is not below the highest index added before; and whenever it returns,
    also for interleaved calls such as class, attr, class, [stringify]
    returns the fragments grouped by kind in canonical order. *)
Theorem X3_accepted_chains_render_in_canonical_order h ps :
  ((exists this h',
      (s <- SelectorBuild.constructor ;; chain s ps) h = (Return this, h'))
   <-> all_accepted [] ps = true)
  /\ (forall this h',
        (s <- SelectorBuild.constructor ;; chain s ps) h = (Return this, h') ->
        SelectorBuild.stringify this h' = (Return (canonical_render ps), h')).
Proof.
  pose proof (constructor_new h) as Hnew. simpl in Hnew.
  assert (chain_apart (h ++ [OSelectorBuild empty_instance]) empty_instance)
    as Ha by (by intros l ?%elem_of_nil).
  split; [split|].
  - intros (this & h' & Hrun). unfold bind in Hrun. simpl in Hrun.
    by destruct (chain_built _ _ _ _ _ _ _ Hnew Hrun) as (_ & Hall & _).
  - intros Hall.
    destruct (chain_accepted ps _ _ _ _ Hnew Ha Hall) as (b' & h' & Hch & _).
    exists (length h), h'. unfold bind. simpl. exact Hch.
  - intros this h' Hrun. unfold bind in Hrun. simpl in Hrun.
    destruct (chain_built _ _ _ _ _ _ _ Hnew Hrun)
      as (-> & _ & b' & Hb' & HC).
    by eapply stringify_built.
Qed.

Lemma X3_accepted_chains_render_in_canonical_order_witness :
  let ps := [Class "a"; Attr "b"; Class "c"] in
  all_accepted [] ps = true
  /\ exists this h',
       (s <- SelectorBuild.constructor ;; chain s ps) [] = (Return this, h')
       /\ SelectorBuild.stringify this h' = (Return ".a.c[b]", h').
Proof.
  destruct (X3_accepted_chains_render_in_canonical_order []
              [Class "a"; Attr "b"; Class "c"]) as [[_ Hreturns] Hrender].
  split; [reflexivity|].
  destruct (Hreturns eq_refl) as (this & h' & Hrun).
  exists this, h'. split; [exact Hrun|]. exact (Hrender this h' Hrun).
Defined.

(** ** What a call does not touch *)

(** X4. A part-adding call on [this] leaves every other [SelectorBuild]
    instance of the store as it was, and changes neither [positions] nor
    [arrCombine] of its own instance, whether it returns or throws. *)
Theorem X4_adders_write_their_own_Map_only h this p :
  (forall l b,
     l <> this -> h !! l = Some (OSelectorBuild b) ->
     (add this p h).2 !! l = Some (OSelectorBuild b))
  /\ (forall b,
        h !! this = Some (OSelectorBuild b) ->
        exists b',
          (add this p h).2 !! this = Some (OSelectorBuild b')
          /\ positions b' = positions b
          /\ arrCombine b' = arrCombine b).
Proof.
  split.
  - intros l b Hne Hl.
    destruct (h !! this) as [[xs|b0]|] eqn:H;
      try (by rewrite add_elsewhere by (intros b1; congruence)).
    rewrite (add_at _ _ _ _ H).
    pose proof (lookup_lt_Some _ _ _ Hl) as Hlt.
    destruct (multi p); unfold multi_outcome, single_outcome.
    + destruct (JsMap.has _ _).
      * destruct (JsMap.get _ _) as [[s|arr]|]; try done.
        destruct (h !! arr) as [[xs|b1]|] eqn:Harr; try done. simpl.
        rewrite list_lookup_insert_ne; [done|]. intros ->. congruence.
      * simpl. rewrite list_lookup_insert_ne by lia.
        rewrite list_lookup_insert_ne by done.
        by apply lookup_alloc_old.
    + destruct (JsMap.has _ _); [done|]. simpl.
      by rewrite list_lookup_insert_ne.
  - intros b H. destruct (add_instance _ _ _ p H) as [H'|[v H']].
    + by exists b.
    + by eexists.
Qed.

Lemma X4_adders_write_their_own_Map_only_witness :
  let h := ((a <- cssSelectorBuilder.class "a" ;;
             cssSelectorBuilder.element "b") []).2 in
  (add 0 (Class "late") h).2 !! 2
  = Some (OSelectorBuild
            {| positions := canonical;
               selectors := [("element", VString "b")];
               arrCombine := [] |}).
Proof.
  apply (proj1 (X4_adders_write_their_own_Map_only
                  ((a <- cssSelectorBuilder.class "a" ;;
                    cssSelectorBuilder.element "b") []).2 0 (Class "late")));
    [discriminate|reflexivity].
Defined.

(** ** The facade's adders *)

Lemma facade_constructs p :
  facade p = (this <- SelectorBuild.constructor ;; add this p).
Proof. by destruct p. Qed.

Lemma canonical_render_one p : canonical_render [p] = fragment p.
Proof. by destruct p. Qed.

(** X5. Each of the six adders of the facade may start a selector: on
    every store it returns a new instance, leaves every object of the
    store as it was, and the new selector renders as the one fragment with
    its prefix. *)
Theorem X5_facade_adders_start_a_selector h p :
  exists h',
    facade p h = (Return (length h), h')
    /\ (forall l o, h !! l = Some o -> h' !! l = Some o)
    /\ SelectorBuild.stringify (length h) h' = (Return (fragment p), h').
Proof.
  pose proof (constructor_new h) as Hnew. simpl in Hnew.
  destruct (add_accepted_new _ _ _ _ p Hnew eq_refl)
    as (v & h' & Hadd & Hb' & Hlen & Hframe & _).
  { by destruct p. }
  exists h'. split; [|split].
  - rewrite facade_constructs. unfold bind. simpl. exact Hadd.
  - intros l o Hl. pose proof (lookup_lt_Some _ _ _ Hl) as Hlt.
    rewrite Hframe; [by apply lookup_alloc_old|lia|].
    rewrite length_app. simpl. lia.
  - rewrite <- canonical_render_one. by eapply stringify_built.
Qed.

(** ** Combinations of combinations *)

Lemma join_nil : JsArray.join [] = "".
Proof. reflexivity. Qed.

(** What [combine] builds renders as: the parts of the first selector,
    the padded combinator, the parts of the second selector, the chain of
    the second selector.  The chain of the first selector plays no part. *)
Lemma combine_renders h selec1 separ selec2 b1 b2 x1 x2 c2 :
  h !! selec1 = Some (OSelectorBuild b1) ->
  h !! selec2 = Some (OSelectorBuild b2) ->
  JsArray.flat (JsMap.values (selectors b1)) h = (Return x1, h) ->
  JsArray.flat (JsMap.values (selectors b2)) h = (Return x2, h) ->
  JsArray.flat (arrCombine b2) h = (Return c2, h) ->
  exists c h',
    cssSelectorBuilder.combine selec1 separ selec2 h = (Return c, h')
    /\ SelectorBuild.stringify c h'
       = (Return (JsArray.join x1 +:+ " " +:+ separ +:+ " "
                  +:+ JsArray.join x2 +:+ JsArray.join c2), h').
Proof.
  intros H1 H2 Hx1 Hx2 Hc2.
  eexists. eexists. split; [by apply combine_at|].
  set (h' := h ++ _).
  assert (forall l o, h !! l = Some o -> h' !! l = Some o) as Hsame.
  { intros l o Hl. by apply lookup_alloc_old. }
  pose proof (flat_frame _ _ h' _ (fun l o _ => Hsame l o) Hx1) as Hx1'.
  pose proof (flat_frame _ _ h' _ (fun l o _ => Hsame l o) Hx2) as Hx2'.
  pose proof (flat_frame _ _ h' _ (fun l o _ => Hsame l o) Hc2) as Hc2'.
  remember (" " +:+ separ +:+ " ") as t eqn:Ht.
  erewrite stringify_chain; [| apply lookup_alloc_new | |]; cycle 1.
  { simpl. by destruct (JsMap.values (selectors b1)). }
  { simpl. apply flat_app; [exact Hx1'|].
    apply (flat_app [VString t] _ _ [t]); [done|].
    apply flat_app; [exact Hx2'|exact Hc2']. }
  f_equal. f_equal. rewrite join_app. f_equal.
  change ([t] ++ x2 ++ c2) with (t :: (x2 ++ c2)).
  rewrite join_cons, join_app. subst t. by rewrite !append_assoc.
Qed.

(** X6. Combinations nest on the right: for a selector [a] that is no
    combination result and a combination result [r] (no parts of its own,
    a chain), [combine(a, token, r)] renders as the rendering of [a], the
    padded token, and the rendering of [r]. *)
Theorem X6_combine_nests_on_the_right h a r ba br token sa sr :
  h !! a = Some (OSelectorBuild ba) ->
  h !! r = Some (OSelectorBuild br) ->
  arrCombine ba = [] ->
  selectors br = [] ->
  arrCombine br <> [] ->
  (SelectorBuild.stringify a h).1 = Return sa ->
  (SelectorBuild.stringify r h).1 = Return sr ->
  exists c h',
    cssSelectorBuilder.combine a token r h = (Return c, h')
    /\ SelectorBuild.stringify c h'
       = (Return (sa +:+ " " +:+ token +:+ " " +:+ sr), h').
Proof.
  intros Ha Hr HCa Hsel HCr Hsa Hsr.
  apply stringify_Return in Hsa as (ba' & xa & Ha' & Hxa & ->).
  apply stringify_Return in Hsr as (br' & xr & Hr' & Hxr & ->).
  assert (ba' = ba) as -> by congruence.
  assert (br' = br) as -> by congruence.
  rewrite HCa in Hxa. simpl in Hxa.
  assert (JsArray.flat (arrCombine br) h = (Return xr, h)) as Hxr'.
  { destruct (arrCombine br); [done|exact Hxr]. }
  destruct (combine_renders h a token r ba br xa [] xr Ha Hr Hxa)
    as (c & h' & Hc & Hs); [by rewrite Hsel|done|].
  exists c, h'. split; [done|]. by rewrite Hs, join_nil.
Qed.

Lemma X6_combine_nests_on_the_right_witness :
  let h := ((a <- cssSelectorBuilder.element "div" ;;
             b <- cssSelectorBuilder.element "table" ;;
             c <- cssSelectorBuilder.element "tr" ;;
             cssSelectorBuilder.combine b "~" c) []).2 in
  (SelectorBuild.stringify 0 h).1 = Return "div"
  /\ (SelectorBuild.stringify 3 h).1 = Return "table ~ tr"
  /\ exists c h',
       cssSelectorBuilder.combine 0 "+" 3 h = (Return c, h')
       /\ SelectorBuild.stringify c h' = (Return "div + table ~ tr", h').
Proof.
  split; [reflexivity|]. split; [reflexivity|].
  eapply (X6_combine_nests_on_the_right
            ((a <- cssSelectorBuilder.element "div" ;;
              b <- cssSelectorBuilder.element "table" ;;
              c <- cssSelectorBuilder.element "tr" ;;
              cssSelectorBuilder.combine b "~" c) []).2
            0 3 _ _ "+" "div" "table ~ tr");
    try reflexivity.
  discriminate.
Defined.

(** X7. Parts added to a combination result, which its own [stringify]
    leaves out, are rendered once the result is the second argument of a
    further [combine]: they stand between the padded token and the chain
    of the result. *)
Theorem X7_parts_of_a_combination_show_in_a_further_combine
    h a r ba br token sa sr xr :
  h !! a = Some (OSelectorBuild ba) ->
  h !! r = Some (OSelectorBuild br) ->
  arrCombine ba = [] ->
  arrCombine br <> [] ->
  (SelectorBuild.stringify a h).1 = Return sa ->
  (SelectorBuild.stringify r h).1 = Return sr ->
  JsArray.flat (JsMap.values (selectors br)) h = (Return xr, h) ->
  exists c h',
    cssSelectorBuilder.combine a token r h = (Return c, h')
    /\ SelectorBuild.stringify c h'
       = (Return (sa +:+ " " +:+ token +:+ " "
                  +:+ JsArray.join xr +:+ sr), h').
Proof.
  intros Ha Hr HCa HCr Hsa Hsr Hxr.
  apply stringify_Return in Hsa as (ba' & xa & Ha' & Hxa & ->).
  apply stringify_Return in Hsr as (br' & cr & Hr' & Hcr & ->).
  assert (ba' = ba) as -> by congruence.
  assert (br' = br) as -> by congruence.
  rewrite HCa in Hxa. simpl in Hxa.
  assert (JsArray.flat (arrCombine br) h = (Return cr, h)) as Hcr'.
  { destruct (arrCombine br); [done|exact Hcr]. }
  exact (combine_renders h a token r ba br xa xr cr Ha Hr Hxa Hxr Hcr').
Qed.

Lemma X7_parts_of_a_combination_show_in_a_further_combine_witness :
  let h := ((a <- cssSelectorBuilder.element "div" ;;
             b <- cssSelectorBuilder.element "table" ;;
             c <- cssSelectorBuilder.element "tr" ;;
             r <- cssSelectorBuilder.combine b "~" c ;;
             SelectorBuild.class r "late") []).2 in
  (SelectorBuild.stringify 0 h).1 = Return "div"
  /\ (SelectorBuild.stringify 3 h).1 = Return "table ~ tr"
  /\ exists c h',
       cssSelectorBuilder.combine 0 "+" 3 h = (Return c, h')
       /\ SelectorBuild.stringify c h'
          = (Return "div + .latetable ~ tr", h').
Proof.
  split; [reflexivity|]. split; [reflexivity|].
  eapply (X7_parts_of_a_combination_show_in_a_further_combine
            ((a <- cssSelectorBuilder.element "div" ;;
              b <- cssSelectorBuilder.element "table" ;;
              c <- cssSelectorBuilder.element "tr" ;;
              r <- cssSelectorBuilder.combine b "~" c ;;
              SelectorBuild.class r "late") []).2
            0 3 _ _ "+" "div" "table ~ tr" [".late"]);
    try reflexivity.
  discriminate.
Defined.

(** ** Arrays shared with a combination *)

(** The chain of a combination holds the array references of its
    arguments' Maps: on any later store in which the three instances are as
    they were, it renders what the arguments render there. *)
Lemma combination_follows_its_arguments (h2 : heap) a b c ba bb bc t xa xb :
  h2 !! a = Some (OSelectorBuild ba) ->
  h2 !! b = Some (OSelectorBuild bb) ->
  h2 !! c = Some (OSelectorBuild bc) ->
  arrCombine bc
  = JsMap.values (selectors ba) ++ [VString t] ++ JsMap.values (selectors bb) ->
  JsArray.flat (JsMap.values (selectors ba)) h2 = (Return xa, h2) ->
  JsArray.flat (JsMap.values (selectors bb)) h2 = (Return xb, h2) ->
  SelectorBuild.stringify c h2
  = (Return (JsArray.join xa +:+ t +:+ JsArray.join xb), h2).
Proof.
  intros Ha Hb Hc HC Hxa Hxb.
  erewrite stringify_chain; [|exact Hc| |]; cycle 1.
  { rewrite HC. by destruct (JsMap.values (selectors ba)). }
  { rewrite HC. apply flat_app; [exact Hxa|].
    apply (flat_app [VString t] _ _ [t]); [done|exact Hxb]. }
  f_equal. f_equal. rewrite join_app. f_equal.
  change ([t] ++ xb) with (t :: xb). by rewrite join_cons.
Qed.

(** X8. [combine] keeps the arrays of its arguments by reference.  After
    [c = combine(a, token, b)] of two selectors without chain, a call on
    any selector [s] that pushes to a multi-valued kind already present
    there leaves [c] rendering what [a] and [b] render after the call: a
    class added later to [a], where [a] had a class, shows in [c]. *)
Theorem X8_combination_shows_later_pushes
    h a b ba bb token c h1 s bs p sa sb :
  h !! a = Some (OSelectorBuild ba) ->
  h !! b = Some (OSelectorBuild bb) ->
  arrCombine ba = [] ->
  arrCombine bb = [] ->
  cssSelectorBuilder.combine a token b h = (Return c, h1) ->
  h1 !! s = Some (OSelectorBuild bs) ->
  multi p = true ->
  JsMap.has (key p) (selectors bs) = true ->
  let h2 := (add s p h1).2 in
  (SelectorBuild.stringify a h2).1 = Return sa ->
  (SelectorBuild.stringify b h2).1 = Return sb ->
  SelectorBuild.stringify c h2
  = (Return (sa +:+ " " +:+ token +:+ " " +:+ sb), h2).
Proof.
  intros Ha Hb HCa HCb Hcomb Hs Hm Hhas.
  rewrite (combine_at _ _ _ _ _ _ Ha Hb), HCb, app_nil_r in Hcomb.
  injection Hcomb as <- <-. intros h2 Hsa Hsb.
  set (bc := {| positions := canonical; selectors := []; arrCombine := _ |})
    in *.
  set (h1 := h ++ [OSelectorBuild bc]) in *.
  assert (forall l o, h1 !! l = Some (OSelectorBuild o) ->
                      h2 !! l = Some (OSelectorBuild o)) as Hkeep.
  { intros l o Hl. subst h2. rewrite (add_at _ _ _ _ Hs), Hm.
    unfold multi_outcome. rewrite Hhas.
    destruct (JsMap.get _ _) as [[x|arr]|]; try done.
    destruct (h1 !! arr) as [[xs|b0]|] eqn:Harr; try done. simpl.
    rewrite list_lookup_insert_ne; [done|]. intros ->. congruence. }
  apply stringify_Return in Hsa as (ba' & xa & Ha' & Hxa & ->).
  apply stringify_Return in Hsb as (bb' & xb & Hb' & Hxb & ->).
  pose proof (Hkeep _ _ (lookup_alloc_old _ _ _ (OSelectorBuild bc) Ha)) as Ha2.
  pose proof (Hkeep _ _ (lookup_alloc_old _ _ _ (OSelectorBuild bc) Hb)) as Hb2.
  assert (ba' = ba) as -> by congruence.
  assert (bb' = bb) as -> by congruence.
  rewrite HCa in Hxa. rewrite HCb in Hxb. simpl in Hxa, Hxb.
  rewrite (combination_follows_its_arguments h2 a b (length h) ba bb bc
             (" " +:+ token +:+ " ") xa xb Ha2 Hb2); try done.
  - by rewrite !append_assoc.
  - apply Hkeep, lookup_alloc_new.
Qed.

Lemma X8_combination_shows_later_pushes_witness :
  let h := ((a <- cssSelectorBuilder.class "a" ;;
             cssSelectorBuilder.element "b") []).2 in
  let h1 := (cssSelectorBuilder.combine 0 "+" 2 h).2 in
  let h2 := (add 0 (Class "late") h1).2 in
  (SelectorBuild.stringify 3 h1).1 = Return ".a + b"
  /\ (SelectorBuild.stringify 0 h2).1 = Return ".a.late"
  /\ SelectorBuild.stringify 3 h2 = (Return ".a.late + b", h2).
Proof.
  split; [reflexivity|]. split; [reflexivity|].
  eapply (X8_combination_shows_later_pushes
            ((a <- cssSelectorBuilder.class "a" ;;
              cssSelectorBuilder.element "b") []).2
            0 2 _ _ "+" 3 _ 0 _ (Class "late") ".a.late" "b");
    reflexivity.
Defined.

(** X9. What else a call does leaves a combination alone: after
    [c = combine(a, token, b)], a call on another selector [s] that adds a
    kind not yet present there, accepted or thrown, changes nothing of
    what [c] renders; a single-valued part, or the first fragment of a
    multi-valued kind, never reaches a combination made before. *)
Theorem X9_combination_ignores_later_new_kinds
    h a b token c h1 s bs p str :
  cssSelectorBuilder.combine a token b h = (Return c, h1) ->
  h !! s = Some (OSelectorBuild bs) ->
  JsMap.has (key p) (selectors bs) = false ->
  (SelectorBuild.stringify c h1).1 = Return str ->
  (SelectorBuild.stringify c (add s p h1).2).1 = Return str.
Proof.
  intros Hcomb Hs Hhas Hstr.
  pose proof (combine_fresh h a token b c) as Hc.
  rewrite Hcomb in Hc. specialize (Hc eq_refl). subst c.
  destruct (combine_allocates h a token b) as [o Ho].
  rewrite Hcomb in Ho. simpl in Ho. subst h1.
  pose proof (lookup_lt_Some _ _ _ Hs) as Hslt.
  pose proof (lookup_alloc_old _ _ _ o Hs) as Hs1.
  apply stringify_Return in Hstr as (bc & xs & Hc & Hflat & ->).
  assert (length (h ++ [o]) = S (length h)) as Hlen
    by (rewrite length_app; simpl; lia).
  rewrite (add_at _ _ _ _ Hs1).
  destruct (multi p); unfold multi_outcome, single_outcome; rewrite Hhas;
    simpl.
  - erewrite stringify_flat; [done| |].
    + rewrite list_lookup_insert_ne by lia.
      rewrite list_lookup_insert_ne by lia.
      by apply lookup_alloc_old.
    + eapply flat_frame; [|exact Hflat].
      intros l o' Hl Ho'. pose proof (lookup_lt_Some _ _ _ Ho') as Hlt.
      destruct (flat_Return_arrays _ _ _ _ Hflat Hl) as [ys Hys].
      rewrite list_lookup_insert_ne by lia.
      rewrite list_lookup_insert_ne by (intros ->; congruence).
      by apply lookup_alloc_old.
  - erewrite stringify_flat; [done| |].
    + by rewrite list_lookup_insert_ne by lia.
    + eapply flat_frame; [|exact Hflat].
      intros l o' Hl Ho'.
      destruct (flat_Return_arrays _ _ _ _ Hflat Hl) as [ys Hys].
      by rewrite list_lookup_insert_ne by (intros ->; congruence).
Qed.

Lemma X9_combination_ignores_later_new_kinds_witness :
  let h := ((a <- cssSelectorBuilder.class "a" ;;
             cssSelectorBuilder.element "b") []).2 in
  let h1 := (cssSelectorBuilder.combine 0 "+" 2 h).2 in
  (SelectorBuild.stringify 3 h1).1 = Return ".a + b"
  /\ (SelectorBuild.stringify 0 (add 0 (Attr "x") h1).2).1 = Return ".a[x]"
  /\ (SelectorBuild.stringify 3 (add 0 (Attr "x") h1).2).1 = Return ".a + b".
Proof.
  split; [reflexivity|]. split; [reflexivity|].
  eapply (X9_combination_ignores_later_new_kinds
            ((a <- cssSelectorBuilder.class "a" ;;
              cssSelectorBuilder.element "b") []).2
            0 2 "+" 3 _ 0 _ (Attr "x") ".a + b");
    reflexivity.
Defined.

(** ** [stringify] writes nothing *)

(** X10. [stringify] never changes the store, whether it returns or
    throws; called again at once it gives what it gave. *)
Theorem X10_stringify_leaves_the_store this h :
  (SelectorBuild.stringify this h).2 = h
  /\ SelectorBuild.stringify this (SelectorBuild.stringify this h).2
     = SelectorBuild.stringify this h.
Proof.
  assert ((SelectorBuild.stringify this h).2 = h) as Hs.
  { unfold SelectorBuild.stringify, bind, read_selector.
    destruct (h !! this) as [[xs|b]|]; try done.
    destruct (0 <? length (arrCombine b))%nat.
    - pose proof (flat_store (arrCombine b) h) as H.
      by destruct (JsArray.flat (arrCombine b) h) as [[ys|e] h1].
    - pose proof (flat_store (JsMap.values (selectors b)) h) as H.
      by destruct (JsArray.flat (JsMap.values (selectors b)) h)
        as [[ys|e] h1]. }
  split; [exact Hs|]. by rewrite Hs.
Qed.

(** ** fromJSON *)

Import FromJSON.

Section FromJSONFacts.

Variable call : nat -> jsvalue -> list jsvalue -> J jsvalue.

Lemma get_own_None k ps : get_own k ps = None <-> k ∉ ps.*1.
Proof.
  induction ps as [|[k' p] ps IH]; simpl.
  - split; [intros _ ?%elem_of_nil|]; done.
  - destruct (String.eqb k' k) eqn:E.
    + apply String.eqb_eq in E. subst k'. split; [done|].
      intros H. destruct H. left.
    + apply String.eqb_neq in E. rewrite IH. rewrite not_elem_of_cons.
      split; [by intros ?|by intros [_ ?]].
Qed.

Lemma create_data_absent k v ps :
  k ∉ ps.*1 -> create_data k v ps = ps ++ [(k, Data v true true)].
Proof.
  induction ps as [|[k' p] ps IH]; simpl; [done|].
  intros [Hne Hk]%not_elem_of_cons.
  destruct (String.eqb k' k) eqn:E.
  - apply String.eqb_eq in E. by subst.
  - by rewrite IH.
Qed.

Lemma set_value_absent k v ps :
  k ∉ ps.*1 -> set_value k v ps = ps ++ [(k, Data v true true)].
Proof.
  induction ps as [|[k' p] ps IH]; simpl; [done|].
  intros [Hne Hk]%not_elem_of_cons.
  destruct (String.eqb k' k) eqn:E.
  - apply String.eqb_eq in E. by subst.
  - by rewrite IH.
Qed.

Lemma create_data_keys_present k v ps :
  k ∈ ps.*1 -> (create_data k v ps).*1 = ps.*1.
Proof.
  induction ps as [|[k' p] ps IH]; simpl; [by intros ?%elem_of_nil|].
  destruct (String.eqb k' k) eqn:E.
  - apply String.eqb_eq in E. by subst k'.
  - apply String.eqb_neq in E. intros [?|Hk]%elem_of_cons; [done|].
    rewrite !fmap_cons. by rewrite IH.
Qed.

Lemma create_data_keys k v ps x :
  x ∈ (create_data k v ps).*1 -> x ∈ ps.*1 \/ x = k.
Proof.
  destruct (decide (k ∈ ps.*1)) as [Hk|Hk].
  - rewrite create_data_keys_present by done. by left.
  - rewrite create_data_absent, fmap_app by done.
    intros [?|?%list_elem_of_singleton]%elem_of_app; [by left|by right].
Qed.

Lemma create_data_plain k v ps : plain ps -> plain (create_data k v ps).
Proof.
  intros [Hd Hnd]. split.
  - clear Hnd. induction ps as [|[k' p] ps IH]; simpl.
    + repeat constructor. by exists v.
    + apply Forall_cons in Hd as [Hp Hd].
      destruct (String.eqb k' k); constructor; eauto.
  - destruct (decide (k ∈ ps.*1)) as [Hk|Hk].
    + by rewrite create_data_keys_present.
    + rewrite create_data_absent, fmap_app by done.
      apply NoDup_app. split; [done|]. split.
      * by intros x Hx ->%list_elem_of_singleton.
      * apply NoDup_singleton.
Qed.

(** *** [JSON.parse] always returns, and only adds objects *)

Lemma parse_elements_total js :
  Forall parses js ->
  forall i s, exists ps s',
    parse_elements JSON_parse i js s = (Return ps, s')
    /\ s `prefix_of` s'.
Proof.
  induction 1 as [|j js Hj _ IH]; intros i s; simpl.
  - by exists [], s.
  - destruct (Hj s) as (v & s1 & Hv & Hs1).
    destruct (IH (S i) s1) as (ps & s2 & Hps & Hs2).
    eexists. exists s2. unfold bind. rewrite Hv, Hps.
    split; [done|]. by etrans.
Qed.

Lemma parse_members_total ms :
  Forall (fun m => parses m.2) ms ->
  forall acc s, plain acc ->
    exists ps s',
      parse_members JSON_parse ms acc s = (Return ps, s')
      /\ s `prefix_of` s'
      /\ plain ps
      /\ (forall k, k ∈ ps.*1 -> k ∈ acc.*1 \/ k ∈ ms.*1).
Proof.
  induction 1 as [|[k j] ms Hj _ IH]; intros acc s Hacc; simpl.
  - exists acc, s. split; [done|]. split; [done|]. split; [done|]. eauto.
  - destruct (Hj s) as (v & s1 & Hv & Hs1). simpl in Hv.
    destruct (IH (create_data k v acc) s1 (create_data_plain _ _ _ Hacc))
      as (ps & s2 & Hps & Hs2 & Hplain & Hkeys).
    exists ps, s2. unfold bind. rewrite Hv, Hps.
    split; [done|]. split; [by etrans|]. split; [done|].
    intros k' Hk'. destruct (Hkeys _ Hk') as [Hin|Hin]; [|right; by right].
    apply create_data_keys in Hin as [Hin| ->]; [by left|]. right. left.
Qed.

Lemma JSON_parse_total j : parses j.
Proof.
  induction j as [|b|n|str|elements IH|members IH] using json_induction;
    intros s; try (by eexists; exists s).
  - destruct (parse_elements_total _ IH 0 s) as (ps & s1 & Hps & Hs1).
    eexists. eexists. simpl. unfold bind. rewrite Hps. simpl.
    split; [done|]. etrans; [done|]. by apply prefix_app_r.
  - destruct (parse_members_total _ IH [] s) as (ps & s1 & Hps & Hs1 & _).
    { split; [constructor|apply NoDup_nil_2]. }
    eexists. eexists. simpl. unfold bind. rewrite Hps. simpl.
    split; [done|]. etrans; [done|]. by apply prefix_app_r.
Qed.

(** The text of an object parses to a new object under
    [%Object.prototype%] with plain properties under the keys of the
    text. *)
Lemma JSON_parse_object members s :
  exists ps s1,
    JSON_parse (JObject members) s
    = (Return (Object (length s1)),
       s1 ++ [{| prototype := Some ObjectPrototype; properties := ps |}])
    /\ s `prefix_of` s1
    /\ plain ps
    /\ (forall k, k ∈ ps.*1 -> k ∈ members.*1).
Proof.
  destruct (parse_members_total members) with (acc := @nil (string * property))
    (s := s) as (ps & s1 & Hps & Hs1 & Hplain & Hkeys).
  - apply Forall_forall. intros m _. apply JSON_parse_total.
  - split; [constructor|apply NoDup_nil_2].
  - exists ps, s1. simpl. unfold bind. rewrite Hps. simpl.
    split; [done|]. split; [done|]. split; [done|].
    intros k Hk. destruct (Hkeys _ Hk) as [?%elem_of_nil|?]; done.
Qed.

(** *** Property lookup along the prototype chain *)

(** A lookup that ends does not depend on the fuel left, nor on objects
    added to the store. *)
Lemma resolve_stable f f' (s s' : store) l k r :
  resolve f s l k = r -> r <> Stuck -> f <= f' ->
  (forall l o, s !! l = Some o -> s' !! l = Some o) ->
  resolve f' s' l k = r.
Proof.
  intros Hr Hne Hle Hsame. revert f' l Hr Hle.
  induction f as [|f IH]; intros f' l Hr Hle; simpl in Hr; [congruence|].
  destruct f' as [|f']; [lia|]. simpl.
  destruct (s !! l) as [o|] eqn:Hl; [|congruence].
  rewrite (Hsame _ _ Hl).
  destruct (get_own k (properties o)); [done|].
  destruct (prototype o) as [parent|]; [|done].
  apply IH; [done|lia].
Qed.

(** *** The loop of [Object.assign] on parsed properties *)

Lemma Set_defines (s0 s : store) to proto done k v :
  (forall l o, s0 !! l = Some o -> s !! l = Some o) ->
  length s0 < length s ->
  s !! to = Some {| prototype := Some proto; properties := done |} ->
  k ∉ done.*1 ->
  assignable (resolve (length s0) s0 proto k) ->
  Set_ call to k v s
  = (Return tt,
     <[to := {| prototype := Some proto;
                properties := done ++ [(k, Data v true true)] |}]> s).
Proof.
  intros Hsame Hlen Hto Hk Hassign. unfold Set_.
  assert (resolve (length s) s to k = resolve (length s0) s0 proto k) as ->.
  { destruct (length s) as [|n] eqn:Hn; [lia|]. simpl. rewrite Hto. simpl.
    rewrite (proj2 (get_own_None _ _) Hk).
    eapply resolve_stable; [done| |lia|done].
    intros E. by rewrite E in Hassign. }
  assert ((o <- read_object to ;;
           write_object to
             {| prototype := prototype o;
                properties := set_value k v (properties o) |}) s
          = (Return tt,
             <[to := {| prototype := Some proto;
                        properties := done ++ [(k, Data v true true)] |}]> s))
    as Hwrite.
  { unfold bind, read_object. rewrite Hto. simpl.
    unfold write_object. rewrite Hto. by rewrite set_value_absent. }
  destruct (resolve (length s0) s0 proto k) as [[v0 [] e|g st e]| |];
    simpl in Hassign; try done.
Qed.


Lemma fromJSON_object proto j s :
  fromJSON call (Object proto) j s
  = match JSON_parse j
            (s ++ [{| prototype := Some proto; properties := [] |}]) with
    | (Return source, s1) => Object_assign call (Object (length s)) source s1
    | (Throw e, s1) => (Throw e, s1)
    end.
Proof. reflexivity. Qed.

Lemma Object_assign_object to from s o s' :
  s !! from = Some o ->
  assign_properties call to from (properties o) s = (Return tt, s') ->
  Object_assign call (Object to) (Object from) s = (Return (Object to), s').
Proof.
  intros Hfrom Hassign. unfold Object_assign, bind, read_object.
  by rewrite Hfrom, Hassign.
Qed.


End FromJSONFacts.



(** ** More of fromJSON *)

Section FromJSONMore.

Variable call : nat -> jsvalue -> list jsvalue -> J jsvalue.

Lemma create_data_has k v ps x :
  x ∈ ps.*1 \/ x = k -> x ∈ (create_data k v ps).*1.
Proof.
  destruct (decide (k ∈ ps.*1)) as [Hk|Hk].
  - rewrite create_data_keys_present by done. by intros [?| ->].
  - rewrite create_data_absent, fmap_app by done.
    intros [?| ->]; apply elem_of_app; [by left|right; left].
Qed.

(** Every key of the text is a key of the parsed properties. *)
Lemma parse_members_keys ms :
  forall acc s ps s',
    parse_members JSON_parse ms acc s = (Return ps, s') ->
    forall k, k ∈ acc.*1 \/ k ∈ ms.*1 -> k ∈ ps.*1.
Proof.
  induction ms as [|[k0 j] ms IH]; intros acc s ps s' H k Hk; simpl in H.
  - injection H as <- <-. by destruct Hk as [?|?%elem_of_nil].
  - unfold bind in H. destruct (JSON_parse j s) as [[v|e] s1]; [|done].
    eapply IH; [exact H|].
    destruct Hk as [Hk|[->|Hk]%elem_of_cons].
    + left. apply create_data_has. by left.
    + left. apply create_data_has. by right.
    + by right.
Qed.

Lemma JSON_parse_object_keys members s :
  exists ps s1,
    JSON_parse (JObject members) s
    = (Return (Object (length s1)),
       s1 ++ [{| prototype := Some ObjectPrototype; properties := ps |}])
    /\ s `prefix_of` s1
    /\ plain ps
    /\ (forall k, k ∈ ps.*1 <-> k ∈ members.*1).
Proof.
  destruct (JSON_parse_object members s)
    as (ps & s1 & Hparse & Hpre & Hplain & Hkeys).
  exists ps, s1. split; [done|]. split; [done|]. split; [done|].
  intros k. split; [apply Hkeys|]. intros Hk.
  assert (JSON_parse (JObject members) s
          = (ps0 <- parse_members JSON_parse members [] ;;
             r <- new_object {| prototype := Some ObjectPrototype;
                                properties := ps0 |} ;;
             ret (Object r)) s) as Hunfold by reflexivity.
  rewrite Hunfold in Hparse. unfold bind in Hparse.
  destruct (parse_members JSON_parse members [] s) as [[ps'|e] s1'] eqn:Hpm;
    [|done].
  simpl in Hparse. injection Hparse as _ Hstore.
  apply app_inj_tail in Hstore as [_ [= ->]].
  eapply parse_members_keys; [exact Hpm|]. by right.
Qed.

(** *** A prototype of [null] *)

Lemma fromJSON_null j s :
  fromJSON call Null j s
  = match JSON_parse j (s ++ [{| prototype := None; properties := [] |}]) with
    | (Return source, s1) => Object_assign call (Object (length s)) source s1
    | (Throw e, s1) => (Throw e, s1)
    end.
Proof. reflexivity. Qed.

Lemma Set_defines_null (s : store) to done k v :
  s !! to = Some {| prototype := None; properties := done |} ->
  k ∉ done.*1 ->
  Set_ call to k v s
  = (Return tt,
     <[to := {| prototype := None;
                properties := done ++ [(k, Data v true true)] |}]> s).
Proof.
  intros Hto Hk. unfold Set_.
  assert (resolve (length s) s to k = NotFound) as ->.
  { pose proof (lookup_lt_Some _ _ _ Hto) as Hlt.
    destruct (length s) as [|n]; [lia|]. simpl. rewrite Hto. simpl.
    by rewrite (proj2 (get_own_None _ _) Hk). }
  unfold bind, read_object. rewrite Hto. simpl.
  unfold write_object. rewrite Hto. by rewrite set_value_absent.
Qed.

Lemma assign_properties_null to from rest :
  forall done (s : store),
    s !! to = Some {| prototype := None; properties := done |} ->
    Forall (fun kp => exists v, kp.2 = Data v true true) rest ->
    NoDup (done.*1 ++ rest.*1) ->
    assign_properties call to from rest s
    = (Return tt,
       <[to := {| prototype := None; properties := done ++ rest |}]> s).
Proof.
  induction rest as [|[k p] rest IH]; intros done s Hto Hdata Hnd.
  - simpl. rewrite app_nil_r. by rewrite list_insert_id.
  - apply Forall_cons in Hdata as [[v Hp] Hdata]. simpl in Hp. subst p.
    rewrite fmap_cons in Hnd. simpl in Hnd.
    assert (k ∉ done.*1) as Hk.
    { apply NoDup_app in Hnd as (_ & Hdisj & _). intros Hin.
      apply (Hdisj _ Hin). left. }
    simpl. unfold bind at 1. unfold bind at 1. simpl.
    rewrite (Set_defines_null s to done k v Hto Hk).
    rewrite (IH (done ++ [(k, Data v true true)])).
    + rewrite list_insert_insert_eq. by rewrite <- app_assoc.
    + apply list_lookup_insert_eq. by eapply lookup_lt_Some.
    + done.
    + rewrite fmap_app. simpl. by rewrite <- app_assoc.
Qed.

(** X11. With the prototype [null], [fromJSON] returns for every JSON text
    of an object: the result is a new object without prototype, the
    objects of the store are as they were, and its own properties are
    those of the parsed object, one under every key of the text,
    '__proto__' included. *)
Theorem X11_fromJSON_null_prototype_keeps_every_field s members :
  exists s' ps src,
    fromJSON call Null (JObject members) s = (Return (Object (length s)), s')
    /\ (forall l o, s !! l = Some o -> s' !! l = Some o)
    /\ s' !! length s = Some {| prototype := None; properties := ps |}
    /\ s' !! src
       = Some {| prototype := Some ObjectPrototype; properties := ps |}
    /\ (forall k, k ∈ members.*1 <-> exists p, get_own k ps = Some p).
Proof.
  set (t0 := {| prototype := None; properties := [] |}).
  destruct (JSON_parse_object_keys members (s ++ [t0]))
    as (ps & s1 & Hparse & Hpre & [Hdata Hnd] & Hkeys).
  set (o1 := {| prototype := Some ObjectPrototype; properties := ps |}) in *.
  set (to := length s).
  assert ((s ++ [t0]) !! to = Some t0) as Hto0 by apply lookup_alloc_new.
  assert (s1 !! to = Some t0) as Hto1 by (by eapply prefix_lookup_Some).
  assert ((s1 ++ [o1]) !! to = Some t0) as Hto.
  { rewrite lookup_app_l; [done|]. by eapply lookup_lt_Some. }
  assert (to < length s1) as Hlt by (by eapply lookup_lt_Some).
  assert (forall l o, s !! l = Some o -> (s1 ++ [o1]) !! l = Some o) as Hsame.
  { intros l o Hl. apply lookup_lt_Some in Hl as Hlen.
    rewrite lookup_app_l by (subst to; lia).
    eapply prefix_lookup_Some; [|done]. by rewrite lookup_app_l. }
  exists (<[to := {| prototype := None; properties := ps |}]> (s1 ++ [o1])),
    ps, (length s1).
  split; [|split; [|split; [|split]]].
  - rewrite fromJSON_null. fold t0. rewrite Hparse.
    apply (Object_assign_object _ _ _ _ o1); [apply lookup_alloc_new|].
    by apply (assign_properties_null to (length s1) ps []).
  - intros l o Hl. rewrite list_lookup_insert_ne; [by apply Hsame|].
    apply lookup_lt_Some in Hl. subst to. lia.
  - apply list_lookup_insert_eq. rewrite length_app. lia.
  - rewrite list_lookup_insert_ne by lia. apply lookup_alloc_new.
  - intros k. rewrite <- Hkeys. split.
    + intros Hk. destruct (get_own k ps) as [p|] eqn:Hget; [by exists p|].
      by apply get_own_None in Hget.
    + intros [p Hp] . destruct (decide (k ∈ ps.*1)) as [?|Hn]; [done|].
      apply get_own_None in Hn. congruence.
Qed.

(** *** The key '__proto__' *)

Lemma resolve_through f (s : store) O P o parent :
  s !! O = Some o -> get_own P (properties o) = None ->
  prototype o = Some parent ->
  resolve (S f) s O P = resolve f s parent P.
Proof. intros H1 H2 H3. simpl. by rewrite H1, H2, H3. Qed.

(** X12. Wherever '__proto__' resolves from [proto] to the accessor of
    [Object.prototype], [fromJSON(proto, '{"__proto__": null}')] returns an
    object without prototype and without own properties: the store after
    the call is the store before it, that object, and the parsed object
    with its own '__proto__'. *)
Theorem X12_fromJSON_proto_key_null_removes_the_prototype
    s proto getter enum :
  resolve (length s) s proto "__proto__"
  = Found (Accessor getter (Some ProtoSetter) enum) ->
  fromJSON call (Object proto) (JObject [("__proto__", JNull)]) s
  = (Return (Object (length s)),
     s ++ [ {| prototype := None; properties := [] |};
            {| prototype := Some ObjectPrototype;
               properties := [("__proto__", Data Null true true)] |} ]).
Proof.
  intros Hres.
  set (t0 := {| prototype := Some proto; properties := [] |}).
  set (o1 := {| prototype := Some ObjectPrototype;
                properties := [("__proto__", Data Null true true)] |}).
  set (s1 := (s ++ [t0]) ++ [o1]).
  assert (s1 !! length s = Some t0) as Hto.
  { subst s1. rewrite lookup_app_l by (rewrite length_app; simpl; lia).
    apply lookup_alloc_new. }
  assert (s1 !! length (s ++ [t0]) = Some o1) as Hsrc
    by apply lookup_alloc_new.
  assert (length s1 = S (S (length s))) as Hlen.
  { subst s1. rewrite !length_app. simpl. lia. }
  assert (forall l o, s !! l = Some o -> s1 !! l = Some o) as Hsame.
  { intros l o Hl. subst s1. by apply lookup_alloc_old, lookup_alloc_old. }
  rewrite fromJSON_object. fold t0.
  change (JSON_parse (JObject [("__proto__", JNull)]) (s ++ [t0]))
    with (Return (Object (length (s ++ [t0]))), s1).
  unfold Object_assign, bind at 1, read_object. rewrite Hsrc.
  unfold o1 at 1. unfold properties at 1.
  unfold assign_properties, bind at 1, bind at 1, bind at 1.
  unfold enumerable, Get_own, ret at 1.
  unfold Set_. rewrite Hlen.
  assert (resolve (S (S (length s))) s1 (length s) "__proto__"
          = Found (Accessor getter (Some ProtoSetter) enum)) as ->.
  { rewrite (resolve_through _ _ _ _ t0 proto Hto eq_refl eq_refl).
    eapply resolve_stable; [exact Hres|done|lia|done]. }
  unfold call_setter, proto_setter, bind, read_object. rewrite Hto.
  unfold write_object. rewrite Hto. unfold ret. simpl.
  f_equal. subst s1.
  rewrite <- (assoc_L app s [t0] [o1]).
  rewrite insert_app_r_alt by lia. by rewrite Nat.sub_diag.
Qed.

End FromJSONMore.

Lemma X12_fromJSON_proto_key_null_removes_the_prototype_witness :
  resolve (length circle_store) circle_store Circle_prototype "__proto__"
  = Found (Accessor None (Some ProtoSetter) false)
  /\ fromJSON no_functions (Object Circle_prototype)
       (JObject [("__proto__", JNull)]) circle_store
     = (Return (Object 4),
        circle_store
          ++ [ {| prototype := None; properties := [] |};
               {| prototype := Some ObjectPrototype;
                  properties := [("__proto__", Data Null true true)] |} ]).
Proof.
  split; [reflexivity|].
  exact (X12_fromJSON_proto_key_null_removes_the_prototype no_functions
           circle_store Circle_prototype None false eq_refl).
Defined.


(** *** Read-only properties on the prototype chain *)

Section FromJSONRefused.

Variable call : nat -> jsvalue -> list jsvalue -> J jsvalue.

Lemma Set_refuses (s0 s : store) to proto done k v :
  (forall l o, s0 !! l = Some o -> s !! l = Some o) ->
  length s0 < length s ->
  s !! to = Some {| prototype := Some proto; properties := done |} ->
  k ∉ done.*1 ->
  refused (resolve (length s0) s0 proto k) ->
  Set_ call to k v s = (Throw TypeError, s).
Proof.
  intros Hsame Hlen Hto Hk Hrefused. unfold Set_.
  assert (resolve (length s) s to k = resolve (length s0) s0 proto k) as ->.
  { destruct (length s) as [|n] eqn:Hn; [lia|].
    rewrite (resolve_through _ _ _ _ _ proto Hto
               (proj2 (get_own_None _ _) Hk) eq_refl).
    eapply resolve_stable; [done| |lia|done].
    intros E. by rewrite E in Hrefused. }
  by destruct (resolve (length s0) s0 proto k)
    as [[v0 [] e|g [st|] e]| |].
Qed.

Lemma assign_properties_refused (s0 : store) to from proto rest :
  forall done s,
    (forall l o, s0 !! l = Some o -> s !! l = Some o) ->
    length s0 < length s ->
    s0 !! to = None ->
    s !! to = Some {| prototype := Some proto; properties := done |} ->
    Forall (fun kp => exists v, kp.2 = Data v true true) rest ->
    NoDup (done.*1 ++ rest.*1) ->
    (forall k, k ∈ rest.*1 ->
               assignable (resolve (length s0) s0 proto k)
               \/ refused (resolve (length s0) s0 proto k)) ->
    (exists k, k ∈ rest.*1 /\ refused (resolve (length s0) s0 proto k)) ->
    exists s',
      assign_properties call to from rest s = (Throw TypeError, s')
      /\ forall l o, s0 !! l = Some o -> s' !! l = Some o.
Proof.
  induction rest as [|[k p] rest IH];
    intros done s Hsame Hlen Hnew Hto Hdata Hnd Hall (kr & Hkr & Hrefused).
  - by apply elem_of_nil in Hkr.
  - apply Forall_cons in Hdata as [[v Hp] Hdata]. simpl in Hp. subst p.
    rewrite fmap_cons in Hnd, Hall, Hkr. simpl in Hnd, Hall, Hkr.
    assert (k ∉ done.*1) as Hk.
    { apply NoDup_app in Hnd as (_ & Hdisj & _). intros Hin.
      apply (Hdisj _ Hin). left. }
    simpl. unfold bind at 1. unfold bind at 1. simpl.
    destruct (Hall k) as [Hassign|Hrefk]; [left| |].
    + rewrite (Set_defines call s0 s to proto done k v); try done.
      set (s2 := <[to := _]> s).
      apply (IH (done ++ [(k, Data v true true)]) s2).
      * intros l o Hl. subst s2.
        rewrite list_lookup_insert_ne; [by apply Hsame|].
        intros ->. congruence.
      * subst s2. by rewrite length_insert.
      * done.
      * subst s2. apply list_lookup_insert_eq. by eapply lookup_lt_Some.
      * done.
      * rewrite fmap_app. simpl. by rewrite <- app_assoc.
      * intros k' Hk'. apply Hall. by right.
      * exists kr. split; [|done].
        apply elem_of_cons in Hkr as [->|Hkr]; [|done].
        destruct (resolve (length s0) s0 proto k)
          as [[v0 [] e|g [st|] e]| |]; simpl in *; done.
    + rewrite (Set_refuses s0 s to proto done k v); try done.
      by exists s.
Qed.

Lemma Object_assign_throws to from s o e s' :
  s !! from = Some o ->
  assign_properties call to from (properties o) s = (Throw e, s') ->
  Object_assign call (Object to) (Object from) s = (Throw e, s').
Proof.
  intros Hfrom Hassign. unfold Object_assign, bind, read_object.
  by rewrite Hfrom, Hassign.
Qed.

(** X13. When every key of the JSON text of an object resolves, along the
    prototype chain of [proto], to nothing, to a data property or to an
    accessor without setter, and some key resolves to a read-only data
    property or to such an accessor, [fromJSON] throws a TypeError; the
    objects of the store are as they were. *)
Theorem X13_fromJSON_throws_on_a_read_only_property s proto members :
  (forall k, k ∈ members.*1 ->
             assignable (resolve (length s) s proto k)
             \/ refused (resolve (length s) s proto k)) ->
  (exists k, k ∈ members.*1 /\ refused (resolve (length s) s proto k)) ->
  exists s',
    fromJSON call (Object proto) (JObject members) s = (Throw TypeError, s')
    /\ forall l o, s !! l = Some o -> s' !! l = Some o.
Proof.
  intros Hall (kr & Hkr & Hrefused).
  set (t0 := {| prototype := Some proto; properties := [] |}).
  destruct (JSON_parse_object_keys members (s ++ [t0]))
    as (ps & s1 & Hparse & Hpre & [Hdata Hnd] & Hkeys).
  set (o1 := {| prototype := Some ObjectPrototype; properties := ps |}) in *.
  set (to := length s).
  assert ((s ++ [t0]) !! to = Some t0) as Hto0 by apply lookup_alloc_new.
  assert (s1 !! to = Some t0) as Hto1 by (by eapply prefix_lookup_Some).
  assert ((s1 ++ [o1]) !! to = Some t0) as Hto.
  { rewrite lookup_app_l; [done|]. by eapply lookup_lt_Some. }
  assert (to < length s1) as Hlt by (by eapply lookup_lt_Some).
  assert (forall l o, s !! l = Some o -> (s1 ++ [o1]) !! l = Some o) as Hsame.
  { intros l o Hl. apply lookup_lt_Some in Hl as Hlen.
    rewrite lookup_app_l by (subst to; lia).
    eapply prefix_lookup_Some; [|done]. by rewrite lookup_app_l. }
  destruct (assign_properties_refused s to (length s1) proto ps []
              (s1 ++ [o1])) as (s' & Hloop & Hkeep); try done.
  - rewrite length_app. simpl. subst to. lia.
  - by apply lookup_ge_None.
  - intros k Hk. by apply Hall, Hkeys.
  - exists kr. split; [by apply Hkeys|done].
  - exists s'. split; [|done].
    rewrite fromJSON_object. fold t0. rewrite Hparse.
    by apply (Object_assign_throws _ _ _ o1); [apply lookup_alloc_new|].
Qed.

End FromJSONRefused.

(** A frozen prototype with the property [kind], under
    [Object.prototype]. *)
Lemma X13_fromJSON_throws_on_a_read_only_property_witness :
  let s := realm ++ [ {| prototype := Some ObjectPrototype;
                         properties :=
                           [("kind", Data (Str "circle") false true)] |} ] in
  let members := [("radius", JNumber 10); ("kind", JString "square")] in
  (forall k, k ∈ members.*1 ->
             assignable (resolve (length s) s 2 k)
             \/ refused (resolve (length s) s 2 k))
  /\ (exists k, k ∈ members.*1 /\ refused (resolve (length s) s 2 k))
  /\ exists s',
       fromJSON no_functions (Object 2) (JObject members) s
       = (Throw TypeError, s')
       /\ forall l o, s !! l = Some o -> s' !! l = Some o.
Proof.
  intros s members.
  assert (forall k, k ∈ members.*1 ->
                    assignable (resolve (length s) s 2 k)
                    \/ refused (resolve (length s) s 2 k)) as H1.
  { intros k Hk. repeat apply elem_of_cons in Hk as [->|Hk].
    - left. exact I.
    - right. exact I.
    - by apply elem_of_nil in Hk. }
  assert (exists k, k ∈ members.*1 /\ refused (resolve (length s) s 2 k))
    as H2.
  { exists "kind". split; [right; left|exact I]. }
  split; [exact H1|]. split; [exact H2|].
  exact (X13_fromJSON_throws_on_a_read_only_property no_functions s 2 members
           H1 H2).
Defined.

(** *** A prototype taken from the text *)

Section FromJSONPrototype.

Variable call : nat -> jsvalue -> list jsvalue -> J jsvalue.

Lemma JSON_parse_one_member k j s :
  JSON_parse (JObject [(k, j)]) s
  = match JSON_parse j s with
    | (Return v, s1) =>
        (Return (Object (length s1)),
         s1 ++ [{| prototype := Some ObjectPrototype;
                   properties := [(k, Data v true true)] |}])
    | (Throw e, s1) => (Throw e, s1)
    end.
Proof.
  change (JSON_parse (JObject [(k, j)]) s)
    with ((ps <- (v <- JSON_parse j ;; ret (create_data k v [])) ;;
           r <- new_object {| prototype := Some ObjectPrototype;
                              properties := ps |} ;;
           ret (Object r)) s).
  unfold bind. by destruct (JSON_parse j s) as [[v|e] s1].
Qed.

Lemma on_chain_through f (s : store) O l o parent :
  l <> O -> s !! l = Some o -> prototype o = Some parent ->
  on_chain (S f) s O l = on_chain f s O parent.
Proof.
  intros Hne Hl Hp. simpl. apply Nat.eqb_neq in Hne. rewrite Hne, Hl.
  destruct o as [pr props]. simpl in Hp. by subst pr.
Qed.

Lemma on_chain_end f (s : store) O l o :
  l <> O -> s !! l = Some o -> prototype o = None ->
  on_chain (S f) s O l = false.
Proof.
  intros Hne Hl Hp. simpl. apply Nat.eqb_neq in Hne. rewrite Hne, Hl.
  destruct o as [pr props]. simpl in Hp. by subst pr.
Qed.

(** X14. Where [Object.prototype] ends the prototype chains and
    '__proto__' resolves from [proto] to its accessor,
    [fromJSON(proto, '{"__proto__": {...}}')] returns an object whose
    prototype is the object parsed from the inner text, not [proto], and
    that has no own properties. *)
Theorem X14_fromJSON_proto_key_object_replaces_the_prototype
    s proto getter enum root members :
  s !! ObjectPrototype = Some root ->
  prototype root = None ->
  resolve (length s) s proto "__proto__"
  = Found (Accessor getter (Some ProtoSetter) enum) ->
  exists s' inner ps,
    fromJSON call (Object proto) (JObject [("__proto__", JObject members)]) s
    = (Return (Object (length s)), s')
    /\ (JSON_parse (JObject members)
          (s ++ [{| prototype := Some proto; properties := [] |}])).1
       = Return (Object inner)
    /\ s' !! inner
       = Some {| prototype := Some ObjectPrototype; properties := ps |}
    /\ s' !! length s
       = Some {| prototype := Some inner; properties := [] |}.
Proof.
  intros Hroot Hend Hres.
  set (t0 := {| prototype := Some proto; properties := [] |}).
  destruct (JSON_parse_object members (s ++ [t0]))
    as (ps & s1 & Hparse & Hpre & _).
  set (oi := {| prototype := Some ObjectPrototype; properties := ps |}) in *.
  set (inner := length s1) in *.
  set (oo := {| prototype := Some ObjectPrototype;
                properties := [("__proto__", Data (Object inner) true true)] |}).
  set (s2 := (s1 ++ [oi]) ++ [oo]).
  set (to := length s).
  pose proof (lookup_lt_Some _ _ _ Hroot) as Hpos.
  assert ((s ++ [t0]) !! to = Some t0) as Hto0 by apply lookup_alloc_new.
  assert (s1 !! to = Some t0) as Hto1 by (by eapply prefix_lookup_Some).
  assert (to < inner) as Hlt by (by eapply lookup_lt_Some).
  assert (s2 !! to = Some t0) as Hto
    by (by apply lookup_alloc_old, lookup_alloc_old).
  assert (s2 !! inner = Some oi) as Hinner
    by apply lookup_alloc_old, lookup_alloc_new.
  assert (s2 !! length (s1 ++ [oi]) = Some oo) as Hsrc
    by apply lookup_alloc_new.
  assert (forall l o, s !! l = Some o -> s2 !! l = Some o) as Hsame.
  { intros l o Hl. apply lookup_alloc_old, lookup_alloc_old.
    eapply prefix_lookup_Some; [|done]. by apply lookup_alloc_old. }
  assert (length s2 = S (S inner)) as Hlen.
  { subst s2 inner. rewrite !length_app. simpl. lia. }
  exists (<[to := {| prototype := Some inner; properties := [] |}]> s2),
    inner, ps.
  split; [|split; [|split]].
  - rewrite fromJSON_object. fold t0.
    rewrite JSON_parse_one_member, Hparse. fold oi inner oo s2 to.
    unfold Object_assign, bind at 1, read_object. rewrite Hsrc.
    unfold oo at 1. unfold properties at 1.
    unfold assign_properties, bind at 1, bind at 1, bind at 1.
    unfold enumerable, Get_own, ret at 1.
    unfold Set_.
    assert (resolve (length s2) s2 to "__proto__"
            = Found (Accessor getter (Some ProtoSetter) enum)) as ->.
    { rewrite Hlen.
      rewrite (resolve_through _ _ _ _ t0 proto Hto eq_refl eq_refl).
      eapply resolve_stable; [exact Hres|done|subst to; lia|done]. }
    unfold call_setter, proto_setter, bind at 1, read_object. rewrite Hto.
    assert (on_chain (length s2) s2 to inner = false) as ->.
    { rewrite Hlen.
      rewrite (on_chain_through _ _ _ _ oi ObjectPrototype); try done; [|lia].
      apply (on_chain_end _ _ _ _ root); [subst to; lia| |done].
      by apply Hsame. }
    unfold write_object. rewrite Hto. reflexivity.
  - by rewrite Hparse.
  - rewrite list_lookup_insert_ne by lia. exact Hinner.
  - apply list_lookup_insert_eq. by eapply lookup_lt_Some.
Qed.

End FromJSONPrototype.

Lemma X14_fromJSON_proto_key_object_replaces_the_prototype_witness :
  let members := [("getArea", JNumber 0)] in
  circle_store !! ObjectPrototype
  = Some {| prototype := None;
            properties := [("__proto__",
                            Accessor None (Some ProtoSetter) false)] |}
  /\ exists s' inner ps,
       fromJSON no_functions (Object Circle_prototype)
         (JObject [("__proto__", JObject members)]) circle_store
       = (Return (Object 4), s')
       /\ (JSON_parse (JObject members)
             (circle_store
                ++ [{| prototype := Some Circle_prototype;
                       properties := [] |}])).1
          = Return (Object inner)
       /\ s' !! inner
          = Some {| prototype := Some ObjectPrototype; properties := ps |}
       /\ s' !! 4 = Some {| prototype := Some inner; properties := [] |}.
Proof.
  split; [reflexivity|].
  exact (X14_fromJSON_proto_key_object_replaces_the_prototype no_functions
           circle_store Circle_prototype None false _
           [("getArea", JNumber 0)] eq_refl eq_refl eq_refl).
Defined.
